(** * nacl_interp: the PT_INTERP stand-in that re-executes a nexe through
      ${NACL_INTERP_LOADER}

    A shallow embedding of [src/nacl_interp.c].  The program is one linear
    pass over the initial stack block handed over by the kernel; it ends in
    [execve] or in [fail], which writes one diagnostic and exits.  System
    calls are recorded as a trace of events; a run that reads or writes
    outside an object it was given has no trace ([None]). *)

From Stdlib Require Import ZArith List String Ascii Lia.
From stdpp Require Import base option list numbers.

Open Scope Z_scope.

(** * The program *)

(** ** Constants of the system headers *)

(** [<elf.h>] *)
Definition AT_NULL : Z := 0.
Definition AT_PLATFORM : Z := 15.
Definition AT_SECURE : Z := 23.
Definition AT_EXECFN : Z := 31.

(** [<linux/limits.h>] *)
Definition PATH_MAX : nat := 4096.

(** [#define ENVAR "NACL_INTERP_LOADER"] *)
Definition ENVAR : string := "NACL_INTERP_LOADER".

(** The target the file is compiled for: the [#if defined(__x86_64__)]
    ladder of [do_start]. *)
Inductive arch := x86_64 | i386 | arm | mips.

Definition default_platform (a : arch) : string :=
  match a with
  | x86_64 => "x86_64"
  | i386 => "i386"
  | arm => "arm"
  | mips => "mips"
  end.

(** ** Machine integers, bytes and pointers *)

(** [int] is 32 bits wide, two's complement. *)
Definition wrap32 (z : Z) : Z := (z + 2 ^ 31) mod 2 ^ 32 - 2 ^ 31.

Definition INT_MIN : Z := - 2 ^ 31.
Definition INT_MAX : Z := 2 ^ 31 - 1.

Definition bytes_of (s : string) : list Z :=
  map (fun c => Z.of_nat (nat_of_ascii c)) (list_ascii_of_string s).

(** A string constant is the object holding its characters and the
    terminating NUL. *)
Definition literal (s : string) : list Z := bytes_of s ++ [0].

Definition newline : string := String (ascii_of_nat 10) EmptyString.

(** The [const char *] values the program handles:
    a machine word found in the stack block (an address in the memory the
    kernel prepared; the word 0 is the null pointer), the address of a
    string constant, [do_start]'s static [buf], or a position inside
    [fail]'s [valbuf1]. *)
Inductive char_ptr :=
  | Word (w : Z)
  | Lit (s : string)
  | Buf
  | ValBuf (off : nat).

Definition NULL : char_ptr := Word 0.

Definition is_null (p : char_ptr) : bool :=
  match p with
  | Word w => w =? 0
  | _ => false
  end.

(** What is left of an array from index [i] on; nothing below its start. *)
Definition from_index {A} (l : list A) (i : Z) : list A :=
  if i <? 0 then [] else drop (Z.to_nat i) l.

(** [l[i]], [None] outside the object. *)
Definition load {A} (l : list A) (i : Z) : option A :=
  if i <? 0 then None else l !! Z.to_nat i.

(** [l[i] = x], [None] outside the object. *)
Definition store {A} (l : list A) (i : Z) (x : A) : option (list A) :=
  if (0 <=? i) && (i <? Z.of_nat (length l))
  then Some (<[Z.to_nat i := x]> l) else None.

(** The mutable globals: [my_errno] and the static [buf] of [do_start]. *)
Record state := State { buf : list Z; my_errno : Z }.

Definition initial_state : state :=
  {| buf := replicate (PATH_MAX + 1) 0; my_errno := 0 |}.

(** The bytes that lie at and after a pointer, up to the end of its object.
    [mem] is the byte memory the stack block's words point into. *)
Definition view (mem : list Z) (st : state) (valbuf : list Z)
    (p : char_ptr) : list Z :=
  match p with
  | Word w => from_index mem w
  | Lit s => literal s
  | Buf => buf st
  | ValBuf off => drop off valbuf
  end.

(** ** What the kernel answers, and what it is asked *)

(** [k_readlink]: the target of /proc/self/exe, or the errno of the failed
    call.  [k_execve]: [None] when the process image is replaced, or the
    errno with which [execve] returns. *)
Record kernel := Kernel { k_readlink : Z + list Z; k_execve : option Z }.

Record kernel_iovec := Iovec { iov_base : char_ptr; iov_len : nat }.

Inductive event :=
  | EReadlink (path : string) (bufsiz : nat)
  | EExecve (path : char_ptr) (argv : list (option char_ptr)) (envp : Z)
  | EWritev (fd : Z) (data : list (list Z))
  | EExitGroup (status : Z).

(** ** environ_match, my_getenv, my_strlen *)

(** [a] and [b] are the bytes at the two moving pointers; [bp] is the
    address [b] stands for.
<<
  while ( *a == *b ) { if ( *a == '\0') return NULL; ++a; ++b; }
  if ( *a == '\0' && *b == '=') return b + 1;
  return NULL;
>> *)
Fixpoint environ_match (a b : list Z) (bp : Z) : option char_ptr :=
  match a, b with
  | ca :: a', cb :: b' =>
      if ca =? cb then
        if ca =? 0 then Some NULL else environ_match a' b' (bp + 1)
      else if (ca =? 0) && (cb =? 61) then Some (Word (bp + 1))
      else Some NULL
  | _, _ => None
  end.

(** [ws] are the words from [envp] on.
<<
  for (ep = envp; *ep != NULL; ++ep) {
    const char *match = environ_match(name, *ep);
    if (match != NULL) return match;
  }
  return NULL;
>> *)
Fixpoint my_getenv (mem : list Z) (name : string) (ws : list Z)
    : option char_ptr :=
  match ws with
  | [] => None
  | w :: ws' =>
      if w =? 0 then Some NULL
      else
        m ← environ_match (literal name) (from_index mem w) w;
        if is_null m then my_getenv mem name ws' else Some m
  end.

(** [while ( *s++ != '\0') ++n;] on the bytes at [s]. *)
Fixpoint my_strlen (s : list Z) : option nat :=
  match s with
  | [] => None
  | c :: s' => if c =? 0 then Some 0%nat else S <$> my_strlen s'
  end.

(** ** iov_int_string *)

(** ["0123456789"[i]] *)
Definition digit_char (i : Z) : option Z := load (literal "0123456789") i.

(** [p] counts down from [bufsz]; stepping below the buffer leaves it.
<<
  do { --p; *p = "0123456789"[value % 10]; value /= 10; } while (value != 0);
>> *)
Fixpoint iov_int_string_loop (p : nat) (value : Z) (b : list Z)
    : option (nat * list Z) :=
  match p with
  | O => None
  | S p' =>
      c ← digit_char (Z.rem value 10);
      b ← store b (Z.of_nat p') c;
      let value := Z.quot value 10 in
      if value =? 0 then Some (p', b) else iov_int_string_loop p' value b
  end.

(** Returns the filled [*iov] and the buffer. *)
Definition iov_int_string (value : Z) (b : list Z) (bufsz : nat)
    : option (kernel_iovec * list Z) :=
  let negative := value <? 0 in
  let value := if negative then wrap32 (- value) else value in
  '(p, b) ← iov_int_string_loop bufsz value b;
  '(p, b) ← (if negative then
               match p with
               | O => None
               | S p' => b ← store b (Z.of_nat p') 45; Some (p', b)
               end
             else Some (p, b));
  Some ({| iov_base := ValBuf p; iov_len := bufsz - p |}, b).

(** ** fail *)

(** [STRING_IOV(string_constant, cond)] *)
Definition STRING_IOV (s : string) (cond : bool) : kernel_iovec :=
  {| iov_base := Lit s; iov_len := if cond then String.length s else 0%nat |}.

(** The bytes [writev] gathers for one entry. *)
Definition iov_bytes (mem : list Z) (st : state) (valbuf : list Z)
    (e : kernel_iovec) : list Z :=
  take (iov_len e) (view mem st valbuf (iov_base e)).

(** [sys_writev(2, iov, niov); sys_exit_group(2);] ends the run: the
    crash loop after them is never reached. *)
Definition fail (mem : list Z) (st : state)
    (message filename item1 : char_ptr) (value1 : Z) : option (list event) :=
  let valbuf1 := replicate 32 0 in
  let len p := my_strlen (view mem st valbuf1 p) in
  n_message ← len message;
  n_filename ← (if is_null filename then Some 0%nat else len filename);
  n_item1 ← (if is_null item1 then Some 0%nat else len item1);
  let iov :=
    [ STRING_IOV "nacl_interp: " true;
      {| iov_base := message; iov_len := n_message |};
      {| iov_base := filename; iov_len := n_filename |};
      STRING_IOV ": " (negb (is_null item1));
      {| iov_base := item1; iov_len := n_item1 |};
      STRING_IOV "=" (negb (is_null item1));
      {| iov_base := NULL; iov_len := 0 |};
      {| iov_base := Lit newline; iov_len := 1 |} ] in
  '(iov, valbuf1) ←
    (if is_null item1 then Some (iov, valbuf1)
     else '(e, vb) ← iov_int_string value1 valbuf1 32;
          Some (<[6%nat := e]> iov, vb));
  Some [EWritev 2 (map (iov_bytes mem st valbuf1) iov); EExitGroup 2].

(** ** do_start *)

(** [while ( *ep != NULL ) ++ep;] over the words at [ep]. *)
Fixpoint scan_envp (ws : list Z) (ep : Z) : option Z :=
  match ws with
  | [] => None
  | w :: ws' => if w =? 0 then Some ep else scan_envp ws' (ep + 1)
  end.

(** [while (av->a_type != AT_NULL) ++av;] an entry is two words. *)
Fixpoint scan_auxv (ws : list Z) (av : Z) : option Z :=
  match ws with
  | [] => None
  | a_type :: ws1 =>
      if a_type =? AT_NULL then Some av
      else match ws1 with
           | [] => None
           | _ :: ws' => scan_auxv ws' (av + 2)
           end
  end.

(** The three locals the auxiliary vector sets. *)
Record context := Context {
  execfn : char_ptr;
  platform : char_ptr;
  secure : bool
}.

Definition initial_context : context :=
  {| execfn := NULL; platform := NULL; secure := true |}.

(** The [switch (av->a_type)]. *)
Definition auxv_case (a_type a_val : Z) (c : context) : context :=
  if a_type =? AT_EXECFN then
    {| execfn := Word a_val; platform := platform c; secure := secure c |}
  else if a_type =? AT_PLATFORM then
    {| execfn := execfn c; platform := Word a_val; secure := secure c |}
  else if a_type =? AT_SECURE then
    {| execfn := execfn c; platform := platform c;
       secure := negb (a_val =? 0) |}
  else c.

(** [for (av = auxv; av->a_type != AT_NULL; ++av) switch ...] *)
Fixpoint auxv_loop (ws : list Z) (c : context) : option context :=
  match ws with
  | [] => None
  | a_type :: ws1 =>
      if a_type =? AT_NULL then Some c
      else match ws1 with
           | [] => None
           | a_val :: ws' => auxv_loop ws' (auxv_case a_type a_val c)
           end
  end.

(** [sys_readlink("/proc/self/exe", buf, bufsiz)]: the return value and
    the globals afterwards. *)
Definition sys_readlink (k : kernel) (st : state) (bufsiz : nat)
    : Z * state :=
  match k_readlink k with
  | inl e => (-1, {| buf := buf st; my_errno := e |})
  | inr target =>
      let n := Nat.min (length target) bufsiz in
      (Z.of_nat n,
       {| buf := take n target ++ drop n (buf st); my_errno := my_errno st |})
  end.

(** The [if (execfn == NULL) { ... }] block: the pointer, the globals and
    the system calls made. *)
Definition resolve_execfn (k : kernel) (stack : list Z) (argv : Z)
    (st : state) (execfn : char_ptr)
    : option (char_ptr * state * list event) :=
  if is_null execfn then
    let bufsiz := (length (buf st) - 1)%nat in
    let '(n, st) := sys_readlink k st bufsiz in
    let ev := [EReadlink "/proc/self/exe" bufsiz] in
    if 0 <=? n then
      b ← store (buf st) n 0;
      Some (Buf, {| buf := b; my_errno := my_errno st |}, ev)
    else
      a0 ← load stack (argv + 0);
      Some (Word a0, st, ev)
  else Some (execfn, st, []).

(** The [#if] ladder under [if (platform == NULL)]. *)
Definition resolve_platform (a : arch) (platform : char_ptr) : char_ptr :=
  if is_null platform then Lit (default_platform a) else platform.

(** [for (i = 1; i <= argc; ++i) new_argv[2 + i] = argv[i];] with [n]
    rounds left. *)
Fixpoint copy_args (stack : list Z) (argv : Z) (n : nat) (i : Z)
    (new_argv : list (option char_ptr)) : option (list (option char_ptr)) :=
  match n with
  | O => Some new_argv
  | S n' =>
      w ← load stack (argv + i);
      new_argv ← store new_argv (2 + i) (Some (Word w));
      copy_args stack argv n' (i + 1) new_argv
  end.

(** The final block.  A slot of [new_argv] that was never assigned holds
    [None]. *)
Definition redirect (mem : list Z) (k : kernel) (stack : list Z)
    (argc argv envp : Z) (st : state) (platform execfn : char_ptr)
    : option (list event) :=
  loader ← my_getenv mem ENVAR (from_index stack envp);
  let size := wrap32 (argc + 4) in
  if size <=? 0 then None
  else
    let new_argv : list (option char_ptr) := replicate (Z.to_nat size) None in
    if is_null loader then
      fail mem st
        (Lit ("environment variable " ++ ENVAR
              ++ " must be set to run a NaCl binary directly"))
        NULL NULL 0
    else
      new_argv ← store new_argv 0 (Some loader);
      new_argv ← store new_argv 1 (Some platform);
      new_argv ← store new_argv 2 (Some execfn);
      new_argv ← copy_args stack argv (Z.to_nat argc) 1 new_argv;
      let ev := [EExecve loader new_argv envp] in
      match k_execve k with
      | None => Some ev
      | Some e =>
          let st := {| buf := buf st; my_errno := e |} in
          tr ← fail mem st (Lit "failed to execute ") loader (Lit "errno")
                 (my_errno st);
          Some (ev ++ tr)
      end.

(** The pointers the first lines of [do_start] derive from [stack], as
    indices into it: [argv = &stack[1]], [envp = &argv[argc + 1]], [ep] where
    the walk over [envp] stops, [auxv = ep + 1], [av] where the walk over
    [auxv] stops. *)
Record decoded := Decoded {
  argc : Z;
  argv : Z;
  envp : Z;
  ep : Z;
  auxv : Z;
  av : Z
}.

Definition decode (stack : list Z) : option decoded :=
  w0 ← load stack 0;
  let argc := wrap32 w0 in
  let argv := 1 in
  let envp := argv + wrap32 (argc + 1) in
  ep ← scan_envp (from_index stack envp) envp;
  let auxv := ep + 1 in
  av ← scan_auxv (from_index stack auxv) auxv;
  Some {| argc := argc; argv := argv; envp := envp; ep := ep;
          auxv := auxv; av := av |}.

(** The first half of [do_start], down to the [if (execfn == NULL)]
    block: the decoded pointers, the locals set from the auxiliary vector,
    the executable name, the globals and the system calls so far.
    [stack] is the block the entry code passes. *)
Definition do_start_context (k : kernel) (stack : list Z)
    : option (decoded * context * char_ptr * state * list event) :=
  d ← decode stack;
  c ← auxv_loop (from_index stack (auxv d)) initial_context;
  '(execfn, st, ev) ←
    resolve_execfn k stack (argv d) initial_state (execfn c);
  Some (d, c, execfn, st, ev).

Definition do_start (a : arch) (mem : list Z) (k : kernel)
    (stack : list Z) : option (list event) :=
  '(d, c, execfn, st, ev) ← do_start_context k stack;
  if secure c then
    tr ← fail mem st (Lit "refusing secure exec of ") execfn NULL 0;
    Some (ev ++ tr)
  else
    let platform := resolve_platform a (platform c) in
    tr ← redirect mem k stack (argc d) (argv d) (envp d) st platform execfn;
    Some (ev ++ tr).

(** * The vocabulary of the statements *)

(** ** Well-formed process images *)

(** The block the kernel builds: the count, that many argument pointers, a
    null word, the environment pointers, a null word, the auxiliary
    entries, the [AT_NULL] entry, and whatever lies above. *)
Record image := Image {
  im_args : list Z;
  im_envs : list Z;
  im_aux : list (Z * Z);
  im_end_val : Z;
  im_above : list Z
}.

Definition aux_words (aux : list (Z * Z)) : list Z :=
  flat_map (fun e => [fst e; snd e]) aux.

Definition im_argc (im : image) : Z := Z.of_nat (length (im_args im)).

Definition layout (im : image) : list Z :=
  im_argc im :: im_args im ++ 0 :: im_envs im ++ 0 ::
  aux_words (im_aux im) ++ AT_NULL :: im_end_val im :: im_above im.

(** The count fits the [int] arithmetic of [do_start], no environment
    pointer is null and no entry before the last has type [AT_NULL]. *)
Definition wf_image (im : image) : bool :=
  (im_argc im + 4 <? 2 ^ 31)
  && forallb (fun w => negb (w =? 0)) (im_envs im)
  && forallb (fun e => negb (fst e =? AT_NULL)) (im_aux im).

(** ** What the auxiliary vector says *)

(** The value of the last entry with type [tag], if there is one. *)
Fixpoint last_value (tag : Z) (aux : list (Z * Z)) : option Z :=
  match aux with
  | [] => None
  | e :: aux' =>
      match last_value tag aux' with
      | Some v => Some v
      | None => if fst e =? tag then Some (snd e) else None
      end
  end.

(** [auxv_case] applied to the entries in turn. *)
Definition context_of (aux : list (Z * Z)) (c : context) : context :=
  fold_left (fun c e => auxv_case (fst e) (snd e) c) aux c.

(** ** C strings *)

(** The bytes before the first NUL; [None] when the object ends first. *)
Fixpoint cstring (s : list Z) : option (list Z) :=
  match s with
  | [] => None
  | c :: s' => if c =? 0 then Some [] else cons c <$> cstring s'
  end.

(** The string a pointer designates. *)
Definition string_at (mem : list Z) (st : state) (p : char_ptr)
    : option (list Z) :=
  cstring (view mem st [] p).

(** ** Decimal numerals *)

(** A reader of decimal numerals, strict about their form: an optional
    minus sign, at least one digit, no leading zero on a longer numeral
    and no minus zero. *)
Definition digit_value (d : Z) : option Z :=
  if (48 <=? d) && (d <=? 57) then Some (d - 48) else None.

Fixpoint parse_digits (ds : list Z) (acc : Z) : option Z :=
  match ds with
  | [] => Some acc
  | d :: ds' => v ← digit_value d; parse_digits ds' (acc * 10 + v)
  end.

Definition parse_unsigned (ds : list Z) : option Z :=
  match ds with
  | [] => None
  | [d] => digit_value d
  | d :: _ => if d =? 48 then None else parse_digits ds 0
  end.

Definition parse_decimal (r : list Z) : option Z :=
  match r with
  | [] => None
  | c :: ds =>
      if c =? 45 then
        v ← parse_unsigned ds; if v =? 0 then None else Some (- v)
      else parse_unsigned r
  end.

(** The numerals [iov_int_string_loop] writes: digits that read back as
    [v], the first of them not a zero unless [v] is zero. *)
Definition numeral (ds : list Z) (v : Z) : Prop :=
  parse_digits ds 0 = Some v /\
  match ds with
  | [] => False
  | d :: ds' => if v =? 0 then d = 48 /\ ds' = [] else d <> 48
  end.

(** ** fail *)

(** What [fail] hands to [writev], entry by entry. *)
Definition diagnostic (m f : list Z) (item : option (list Z * list Z))
    : list (list Z) :=
  [ bytes_of "nacl_interp: "; m; f;
    match item with Some _ => bytes_of ": " | None => [] end;
    match item with Some (it, _) => it | None => [] end;
    match item with Some _ => bytes_of "=" | None => [] end;
    match item with Some (_, num) => num | None => [] end;
    bytes_of newline ].

(** The string [fail] prints for [filename]: nothing for a null pointer. *)
Definition filename_string (mem : list Z) (st : state) (p : char_ptr)
    : option (list Z) :=
  if is_null p then Some [] else string_at mem st p.

(** ** The environment *)

Fixpoint starts_with (p s : list Z) : bool :=
  match p, s with
  | [], _ => true
  | _ :: _, [] => false
  | c :: p', d :: s' => (c =? d) && starts_with p' s'
  end.

(** An environment string defines [name] when it starts with the name
    and an equals sign. *)
Definition defines (name : string) (s : list Z) : bool :=
  starts_with (bytes_of name ++ [61]) s.

(** The address just after the equals sign of the first string among
    [envs] that defines [name], or the null pointer. *)
Fixpoint env_value (mem : list Z) (name : string) (envs : list Z)
    : char_ptr :=
  match envs with
  | [] => NULL
  | w :: envs' =>
      match cstring (from_index mem w) with
      | Some s =>
          if defines name s
          then Word (w + Z.of_nat (String.length name) + 1)
          else env_value mem name envs'
      | None => NULL
      end
  end.

(** The address holds a NUL-terminated string. *)
Definition readable (mem : list Z) (w : Z) : bool :=
  match cstring (from_index mem w) with
  | Some _ => true
  | None => false
  end.

(** ** The blocks of do_start on a well-formed image *)

(** The bytes of [l] before its first NUL, all of [l] if it has none. *)
Fixpoint until_nul (l : list Z) : list Z :=
  match l with
  | [] => []
  | c :: l' => if c =? 0 then [] else c :: until_nul l'
  end.

(** [argv[0]] of a laid-out block: the first argument pointer, or the
    terminator when there is none. *)
Definition im_argv0 (im : image) : Z := hd 0 (im_args im).

(** The argument vector [redirect] builds for an image: the three new
    entries, the words [argv[1]] to [argv[argc]] (the last of them the
    terminator of [argv]) and the one slot that is never assigned. *)
Definition new_argv_of (im : image) (loader platform execfn : char_ptr)
    : list (option char_ptr) :=
  Some loader :: Some platform :: Some execfn ::
  map (fun w => Some (Word w)) (drop 1 (im_args im ++ [0])) ++ [None].

(** What follows the lookup of the loader in [redirect]. *)
Definition redirect_of (mem : list Z) (k : kernel) (im : image)
    (st : state) (platform execfn : char_ptr) : option (list event) :=
  let loader := env_value mem ENVAR (im_envs im) in
  if is_null loader then
    fail mem st
      (Lit ("environment variable " ++ ENVAR
            ++ " must be set to run a NaCl binary directly"))
      NULL NULL 0
  else
    let ev := [EExecve loader (new_argv_of im loader platform execfn)
                 (im_argc im + 2)] in
    match k_execve k with
    | None => Some ev
    | Some e =>
        tr ← fail mem {| buf := buf st; my_errno := e |}
               (Lit "failed to execute ") loader (Lit "errno") e;
        Some (ev ++ tr)
    end.

(** The locals after the walk over the auxiliary vector of an image. *)
Definition im_context (im : image) : context :=
  context_of (im_aux im) initial_context.

(** The pointers [decode] finds in a laid-out block. *)
Definition im_decoded (im : image) : decoded :=
  {| argc := im_argc im;
     argv := 1;
     envp := im_argc im + 2;
     ep := im_argc im + 2 + Z.of_nat (length (im_envs im));
     auxv := im_argc im + 2 + Z.of_nat (length (im_envs im)) + 1;
     av := im_argc im + 2 + Z.of_nat (length (im_envs im)) + 1
           + 2 * Z.of_nat (length (im_aux im)) |}.

(** The executable name [do_start] settles on for an image, with the
    globals and the system calls behind it. *)
Definition im_execfn (k : kernel) (im : image)
    : char_ptr * state * list event :=
  let e := execfn (im_context im) in
  let ev := [EReadlink "/proc/self/exe" PATH_MAX] in
  if is_null e then
    match k_readlink k with
    | inr target =>
        let n := Nat.min (length target) PATH_MAX in
        (Buf,
         {| buf := take n target ++ replicate (PATH_MAX + 1 - n) 0;
            my_errno := 0 |}, ev)
    | inl err =>
        (Word (im_argv0 im),
         {| buf := replicate (PATH_MAX + 1) 0; my_errno := err |}, ev)
    end
  else (e, initial_state, []).

(** ** The ways a run ends *)

(** The end of every fatal path: one [writev] on descriptor 2, then
    [exit_group(2)]. *)
Definition report (m f : list Z) (item : option (list Z * list Z))
    : list event :=
  [EWritev 2 (diagnostic m f item); EExitGroup 2].

Definition refusing : list Z := bytes_of "refusing secure exec of ".
Definition missing_loader : list Z :=
  bytes_of ("environment variable " ++ ENVAR
            ++ " must be set to run a NaCl binary directly").
Definition failed_exec : list Z := bytes_of "failed to execute ".

(** The pointers that can become the executable name are null or hold a
    string: [argv[0]] and the last [AT_EXECFN] value. *)
Definition names_readable (mem : list Z) (im : image) : bool :=
  let ok w := (w =? 0) || readable mem w in
  ok (im_argv0 im) &&
  match last_value AT_EXECFN (im_aux im) with
  | Some v => ok v
  | None => true
  end.

Definition is_execve (e : event) : bool :=
  match e with EExecve _ _ _ => true | _ => false end.

Definition is_writev (e : event) : bool :=
  match e with EWritev _ _ => true | _ => false end.

Definition is_exit (e : event) : bool :=
  match e with EExitGroup _ => true | _ => false end.

(** ** A sample process *)

(** Address 1 holds "origProg", 10 "a", 12 "b", 14 the loader variable
    (its value at 33), 45 "x86_64", 52 "/path/to/prog", 66 "HOME=/root". *)
Definition sample_mem : list Z :=
  [0] ++ literal "origProg" ++ literal "a" ++ literal "b"
  ++ literal "NACL_INTERP_LOADER=/bin/loader" ++ literal "x86_64"
  ++ literal "/path/to/prog" ++ literal "HOME=/root".

(** [origProg a b] started with the loader in the environment and an
    auxiliary vector that names platform and file and clears the secure
    flag. *)
Definition sample_image : image :=
  {| im_args := [1; 10; 12];
     im_envs := [66; 14];
     im_aux := [(AT_PLATFORM, 45); (AT_EXECFN, 52); (AT_SECURE, 0)];
     im_end_val := 0;
     im_above := [] |}.

(** The same under a set-id execution. *)
Definition sample_secure_image : image :=
  {| im_args := [1; 10; 12];
     im_envs := [66; 14];
     im_aux := [(AT_PLATFORM, 45); (AT_EXECFN, 52); (AT_SECURE, 1)];
     im_end_val := 0;
     im_above := [] |}.

(** No loader in the environment and no [AT_SECURE] entry. *)
Definition sample_bare_image : image :=
  {| im_args := [1; 10; 12];
     im_envs := [66];
     im_aux := [(AT_PLATFORM, 45)];
     im_end_val := 0;
     im_above := [] |}.

(** No loader in the environment, [AT_SECURE] clear. *)
Definition sample_unset_image : image :=
  {| im_args := [1; 10; 12];
     im_envs := [66];
     im_aux := [(AT_SECURE, 0)];
     im_end_val := 0;
     im_above := [] |}.

(** An [AT_EXECFN] entry whose value is the null pointer. *)
Definition sample_null_execfn_image : image :=
  {| im_args := [1];
     im_envs := [14];
     im_aux := [(AT_EXECFN, 0); (AT_SECURE, 0)];
     im_end_val := 0;
     im_above := [] |}.

Definition sample_kernel : kernel :=
  {| k_readlink := inr (bytes_of "/usr/bin/prog"); k_execve := None |}.

Definition sample_failing_kernel : kernel :=
  {| k_readlink := inl 2; k_execve := Some 13 |}.

(** ** The loader variable *)

(** Every environment pointer holds a string, and none of the strings
    defines [name]. *)
Definition undefined_in (mem : list Z) (name : string) (envs : list Z)
    : bool :=
  forallb (fun w => match cstring (from_index mem w) with
                    | Some s => negb (defines name s)
                    | None => false
                    end) envs.

(** ** The new argument vector *)

(** What [execve] reads of an argument array: the pointers before the
    first null one.  [None] when it runs into a slot that was never
    assigned, or off the array. *)
Fixpoint argv_view (arr : list (option char_ptr)) : option (list char_ptr) :=
  match arr with
  | [] => None
  | None :: _ => None
  | Some p :: arr' => if is_null p then Some [] else cons p <$> argv_view arr'
  end.

(** ** The shape of a run *)

(** The two calls that end every fatal path. *)
Definition fatal_end (tr : list event) : Prop :=
  exists data, tr = [EWritev 2 data; EExitGroup 2] /\ length data = 8%nat.

(** What a run consists of after the executable name is settled: a fatal
    end, or one [execve] on a path that is not null and is also the first
    entry of the array, and, if that returns, a fatal end. *)
Definition redirect_end (k : kernel) (tr : list event) : Prop :=
  fatal_end tr \/
  exists path arr envp tail,
    tr = EExecve path arr envp :: tail /\ is_null path = false /\
    arr !! 0%nat = Some (Some path) /\
    match k_execve k with
    | None => tail = []
    | Some _ => fatal_end tail
    end.

(** Two memories hold the same string, or both none, at an address. *)
Definition agree_at (mem1 mem2 : list Z) (w : Z) : Prop :=
  cstring (from_index mem1 w) = cstring (from_index mem2 w).

(** * Proofs *)

(** One step through a bind of the option monad. *)
Ltac bind_step := cbn [mbind option_bind].

(** ** Arithmetic and array facts *)

Lemma wrap32_id z : - 2 ^ 31 <= z < 2 ^ 31 -> wrap32 z = z.
Proof.
  intros H. unfold wrap32.
  rewrite Z.mod_small by lia. lia.
Qed.

Lemma from_index_nat {A} (l : list A) (n : nat) :
  from_index l (Z.of_nat n) = drop n l.
Proof.
  unfold from_index.
  destruct (Z.ltb_spec (Z.of_nat n) 0); [lia|].
  by rewrite Nat2Z.id.
Qed.

Lemma from_index_app {A} (l1 l2 : list A) (i : Z) :
  i = Z.of_nat (length l1) -> from_index (l1 ++ l2) i = l2.
Proof.
  intros ->. rewrite from_index_nat. by rewrite drop_app_length.
Qed.

Lemma load_from_index {A} (l : list A) (i : Z) :
  0 <= i -> load l i = head (from_index l i).
Proof.
  intros H. unfold load, from_index.
  destruct (Z.ltb_spec i 0); [lia|].
  by rewrite head_lookup, lookup_drop, Nat.add_0_r.
Qed.

Lemma store_nat {A} (l : list A) (n : nat) (x : A) :
  (n < length l)%nat -> store l (Z.of_nat n) x = Some (<[n := x]> l).
Proof.
  intros H. unfold store.
  destruct (Z.leb_spec 0 (Z.of_nat n)); [|lia].
  destruct (Z.ltb_spec (Z.of_nat n) (Z.of_nat (length l))); [|lia].
  simpl. by rewrite Nat2Z.id.
Qed.

Lemma forallb_nonzero (l : list Z) :
  forallb (fun w => negb (w =? 0)) l = true -> Forall (fun w => w <> 0) l.
Proof.
  induction l as [|w l IH]; simpl; intros H; [constructor|].
  apply andb_prop in H as [Hw Hl].
  constructor; [|by apply IH].
  by destruct (Z.eqb_spec w 0).
Qed.

(** ** The walks over the block *)

Lemma scan_envp_app (envs tl : list Z) (i : Z) :
  Forall (fun w => w <> 0) envs ->
  scan_envp (envs ++ 0 :: tl) i = Some (i + Z.of_nat (length envs)).
Proof.
  intros H. revert i.
  induction H as [|w envs Hw _ IH]; intros i; simpl.
  - f_equal. lia.
  - destruct (Z.eqb_spec w 0); [done|].
    rewrite IH. f_equal. lia.
Qed.

Lemma scan_envp_first (ws : list Z) (i e : Z) :
  scan_envp ws i = Some e ->
  i <= e /\ ws !! Z.to_nat (e - i) = Some 0 /\
  forall j : nat, (j < Z.to_nat (e - i))%nat ->
    exists w, ws !! j = Some w /\ w <> 0.
Proof.
  revert i. induction ws as [|w ws IH]; intros i; simpl; [done|].
  destruct (Z.eqb_spec w 0) as [->|Hw].
  - intros [= <-]. rewrite Z.sub_diag. simpl.
    split; [lia|]. split; [done|]. intros j Hj. lia.
  - intros H. apply IH in H as (Hle & H0 & Hall).
    replace (Z.to_nat (e - i)) with (S (Z.to_nat (e - (i + 1)))) by lia.
    split; [lia|]. split; [done|].
    intros [|j] Hj; simpl; [eauto|]. apply Hall. lia.
Qed.

Lemma aux_words_length (aux : list (Z * Z)) :
  length (aux_words aux) = (2 * length aux)%nat.
Proof. induction aux as [|e aux IH]; simpl; lia. Qed.

Lemma scan_auxv_app (aux : list (Z * Z)) (tl : list Z) (i : Z) :
  Forall (fun e => fst e <> AT_NULL) aux ->
  scan_auxv (aux_words aux ++ AT_NULL :: tl) i
  = Some (i + 2 * Z.of_nat (length aux)).
Proof.
  intros H. revert i.
  induction H as [|[t v] aux Ht _ IH]; intros i.
  - simpl. f_equal. lia.
  - cbn [aux_words flat_map fst snd app scan_auxv] in *.
    destruct (Z.eqb_spec t AT_NULL); [done|].
    rewrite IH. cbn [length]. f_equal. lia.
Qed.

Lemma scan_auxv_first (ws : list Z) (i e : Z) :
  scan_auxv ws i = Some e ->
  exists n : nat, e = i + 2 * Z.of_nat n /\
    ws !! (2 * n)%nat = Some AT_NULL /\
    forall j : nat, (j < n)%nat ->
      exists t, ws !! (2 * j)%nat = Some t /\ t <> AT_NULL.
Proof.
  remember (length ws) as n eqn:Hn. revert ws i Hn.
  induction n as [n IH] using lt_wf_ind. intros [|t ws1] i Hn; [done|].
  destruct ws1 as [|v ws']; cbn [scan_auxv].
  - destruct (Z.eqb_spec t AT_NULL) as [->|Ht]; [|done].
    intros [= <-]. exists 0%nat. split; [lia|]. split; [done|]. lia.
  - destruct (Z.eqb_spec t AT_NULL) as [->|Ht].
    + intros [= <-]. exists 0%nat. split; [lia|]. split; [done|]. lia.
    + intros H.
      assert (length ws' < n)%nat as Hlt by (simpl in Hn; lia).
      apply (IH _ Hlt ws' _ eq_refl) in H as (m & -> & H0 & Hall).
      rename m into n'. exists (S n'). split; [lia|].
      split.
      { replace (2 * S n')%nat with (S (S (2 * n'))) by lia. exact H0. }
      intros [|j] Hj; [simpl; eauto|].
      replace (2 * S j)%nat with (S (S (2 * j))) by lia.
      apply (Hall j). lia.
Qed.

Lemma from_index_lookup {A} (l : list A) (i : Z) (j : nat) :
  0 <= i -> from_index l i !! j = load l (i + Z.of_nat j).
Proof.
  intros H. unfold from_index, load.
  destruct (Z.ltb_spec i 0); [lia|].
  destruct (Z.ltb_spec (i + Z.of_nat j) 0); [lia|].
  rewrite lookup_drop. f_equal. lia.
Qed.

Lemma scan_envp_nonempty (ws : list Z) (i e : Z) :
  scan_envp ws i = Some e -> ws <> [].
Proof. by destruct ws. Qed.

Lemma scan_auxv_nonempty (ws : list Z) (i e : Z) :
  scan_auxv ws i = Some e -> ws <> [].
Proof. by destruct ws. Qed.

Lemma from_index_nonempty {A} (l : list A) (i : Z) :
  from_index l i <> [] -> 0 <= i.
Proof.
  unfold from_index. destruct (Z.ltb_spec i 0); [done | lia].
Qed.

(** Whatever block [decode] accepts, [ep] is the first null word at or
    after [envp] and [av] the first [AT_NULL] entry at or after [auxv]. *)
Lemma decode_sound (stack : list Z) (d : decoded) :
  decode stack = Some d ->
  (exists w0, load stack 0 = Some w0 /\ argc d = wrap32 w0) /\
  argv d = 1 /\
  envp d = argv d + wrap32 (argc d + 1) /\
  (envp d <= ep d /\ load stack (ep d) = Some 0 /\
   forall j, envp d <= j < ep d ->
     exists w, load stack j = Some w /\ w <> 0) /\
  auxv d = ep d + 1 /\
  (exists n : nat, av d = auxv d + 2 * Z.of_nat n /\
     load stack (av d) = Some AT_NULL /\
     forall j : nat, (j < n)%nat ->
       exists t, load stack (auxv d + 2 * Z.of_nat j) = Some t /\
                 t <> AT_NULL).
Proof.
  unfold decode. intros H.
  destruct (load stack 0) as [w0|] eqn:Hw0; [|done].
  cbn [mbind option_bind] in H.
  set (c := wrap32 w0) in *. set (e := 1 + wrap32 (c + 1)) in *.
  destruct (scan_envp (from_index stack e) e) as [p|] eqn:Hp; [|done].
  cbn [mbind option_bind] in H.
  destruct (scan_auxv (from_index stack (p + 1)) (p + 1)) as [q|] eqn:Hq;
    [|done].
  injection H as <-. cbn [argc argv envp ep auxv av].
  pose proof (from_index_nonempty _ _ (scan_envp_nonempty _ _ _ Hp)) as He.
  pose proof (from_index_nonempty _ _ (scan_auxv_nonempty _ _ _ Hq)) as Ha.
  apply scan_envp_first in Hp as (Hle & Hp0 & Hpall).
  apply scan_auxv_first in Hq as (n & -> & Hq0 & Hqall).
  split; [by exists w0|]. split; [done|]. split; [done|].
  split; [|split; [done|]].
  - split; [done|]. split.
    + rewrite from_index_lookup in Hp0 by done.
      by replace (e + Z.of_nat (Z.to_nat (p - e))) with p in Hp0 by lia.
    + intros j Hj.
      destruct (Hpall (Z.to_nat (j - e))) as (w & Hw & Hne); [lia|].
      exists w. split; [|done].
      rewrite from_index_lookup in Hw by done.
      by replace (e + Z.of_nat (Z.to_nat (j - e))) with j in Hw by lia.
  - exists n. split; [done|]. split.
    + rewrite from_index_lookup in Hq0 by done.
      by replace (p + 1 + Z.of_nat (2 * n)) with (p + 1 + 2 * Z.of_nat n)
        in Hq0 by lia.
    + intros j Hj. destruct (Hqall j Hj) as (t & Ht & Hne).
      exists t. split; [|done].
      rewrite from_index_lookup in Ht by done.
      by replace (p + 1 + Z.of_nat (2 * j)) with (p + 1 + 2 * Z.of_nat j)
        in Ht by lia.
Qed.

(** The pieces of a laid-out block. *)
Lemma layout_argv (im : image) :
  from_index (layout im) 1
  = im_args im ++ 0 :: im_envs im ++ 0 ::
    aux_words (im_aux im) ++ AT_NULL :: im_end_val im :: im_above im.
Proof. reflexivity. Qed.

Lemma layout_envp (im : image) :
  from_index (layout im) (im_argc im + 2)
  = im_envs im ++ 0 ::
    aux_words (im_aux im) ++ AT_NULL :: im_end_val im :: im_above im.
Proof.
  unfold layout.
  set (tl := im_envs im ++ _).
  replace (im_argc im :: im_args im ++ 0 :: tl)
    with ((im_argc im :: im_args im ++ [0]) ++ tl)
    by (simpl; by rewrite <- app_assoc).
  apply from_index_app.
  unfold im_argc. simpl. rewrite length_app. simpl. lia.
Qed.

Lemma layout_auxv (im : image) :
  from_index (layout im)
    (im_argc im + 2 + Z.of_nat (length (im_envs im)) + 1)
  = aux_words (im_aux im) ++ AT_NULL :: im_end_val im :: im_above im.
Proof.
  unfold layout.
  set (tl := aux_words _ ++ _).
  replace (im_argc im :: im_args im ++ 0 :: im_envs im ++ 0 :: tl)
    with ((im_argc im :: im_args im ++ 0 :: im_envs im ++ [0]) ++ tl)
    by (simpl; rewrite <- !app_assoc; simpl; by rewrite <- app_assoc).
  apply from_index_app.
  unfold im_argc. simpl. rewrite length_app. simpl. rewrite length_app.
  simpl. lia.
Qed.

Lemma wf_image_inv (im : image) :
  wf_image im = true ->
  0 <= im_argc im /\ im_argc im + 4 < 2 ^ 31 /\
  Forall (fun w => w <> 0) (im_envs im) /\
  Forall (fun e => fst e <> AT_NULL) (im_aux im).
Proof.
  unfold wf_image. intros H.
  apply andb_prop in H as [H Haux]. apply andb_prop in H as [Hc Henv].
  split; [unfold im_argc; lia|].
  split; [by apply Z.ltb_lt|].
  split; [by apply forallb_nonzero|].
  clear -Haux. induction (im_aux im) as [|e aux IH]; [constructor|].
  simpl in Haux. apply andb_prop in Haux as [He Haux].
  constructor; [|by apply IH].
  by destruct (Z.eqb_spec (fst e) AT_NULL).
Qed.

Lemma decode_layout (im : image) :
  wf_image im = true ->
  decode (layout im)
  = Some {| argc := im_argc im;
            argv := 1;
            envp := im_argc im + 2;
            ep := im_argc im + 2 + Z.of_nat (length (im_envs im));
            auxv := im_argc im + 2 + Z.of_nat (length (im_envs im)) + 1;
            av := im_argc im + 2 + Z.of_nat (length (im_envs im)) + 1
                  + 2 * Z.of_nat (length (im_aux im)) |}.
Proof.
  intros (Hc0 & Hc & Henv & Haux)%wf_image_inv.
  unfold decode.
  change (load (layout im) 0) with (Some (im_argc im)).
  bind_step.
  rewrite (wrap32_id (im_argc im)) by lia.
  rewrite (wrap32_id (im_argc im + 1)) by lia.
  replace (1 + (im_argc im + 1)) with (im_argc im + 2) by lia.
  rewrite layout_envp, scan_envp_app by done.
  bind_step.
  rewrite layout_auxv, scan_auxv_app by done.
  reflexivity.
Qed.

(** ** What the auxiliary vector says *)

Lemma auxv_loop_app (aux : list (Z * Z)) (tl : list Z) (c : context) :
  Forall (fun e => fst e <> AT_NULL) aux ->
  auxv_loop (aux_words aux ++ AT_NULL :: tl) c = Some (context_of aux c).
Proof.
  intros H. revert c.
  induction H as [|[t v] aux Ht _ IH]; intros c; [done|].
  cbn [aux_words flat_map fst snd app auxv_loop] in *.
  destruct (Z.eqb_spec t AT_NULL); [done|].
  by rewrite IH.
Qed.

Lemma context_of_execfn (aux : list (Z * Z)) (c : context) :
  execfn (context_of aux c)
  = match last_value AT_EXECFN aux with
    | Some v => Word v
    | None => execfn c
    end.
Proof.
  revert c. induction aux as [|[t v] aux IH]; intros c; [done|].
  cbn [context_of fold_left last_value fst snd].
  fold (context_of aux (auxv_case t v c)). rewrite IH.
  destruct (last_value AT_EXECFN aux); [done|].
  unfold auxv_case.
  destruct (Z.eqb_spec t AT_EXECFN) as [->|]; [done|].
  by destruct (t =? AT_PLATFORM), (t =? AT_SECURE).
Qed.

Lemma context_of_platform (aux : list (Z * Z)) (c : context) :
  platform (context_of aux c)
  = match last_value AT_PLATFORM aux with
    | Some v => Word v
    | None => platform c
    end.
Proof.
  revert c. induction aux as [|[t v] aux IH]; intros c; [done|].
  cbn [context_of fold_left last_value fst snd].
  fold (context_of aux (auxv_case t v c)). rewrite IH.
  destruct (last_value AT_PLATFORM aux); [done|].
  unfold auxv_case.
  destruct (Z.eqb_spec t AT_PLATFORM) as [->|]; [done|].
  by destruct (t =? AT_EXECFN), (t =? AT_SECURE).
Qed.

Lemma context_of_secure (aux : list (Z * Z)) (c : context) :
  secure (context_of aux c)
  = match last_value AT_SECURE aux with
    | Some v => negb (v =? 0)
    | None => secure c
    end.
Proof.
  revert c. induction aux as [|[t v] aux IH]; intros c; [done|].
  cbn [context_of fold_left last_value fst snd].
  fold (context_of aux (auxv_case t v c)). rewrite IH.
  destruct (last_value AT_SECURE aux); [done|].
  unfold auxv_case.
  destruct (Z.eqb_spec t AT_SECURE) as [->|]; [done|].
  by destruct (t =? AT_EXECFN), (t =? AT_PLATFORM).
Qed.

(** ** C strings *)

Lemma my_strlen_cstring (s : list Z) : my_strlen s = length <$> cstring s.
Proof.
  induction s as [|c s IH]; [done|]. simpl.
  destruct (c =? 0); [done|]. rewrite IH.
  by destruct (cstring s).
Qed.

Lemma cstring_take (s r : list Z) :
  cstring s = Some r -> take (length r) s = r.
Proof.
  revert r. induction s as [|c s IH]; intros r; [done|]. simpl.
  destruct (c =? 0); [by intros [= <-]|].
  destruct (cstring s) as [r'|]; [|done].
  intros [= <-]. simpl. f_equal. by apply IH.
Qed.

Lemma cstring_app (r tl : list Z) :
  Forall (fun c => c <> 0) r -> cstring (r ++ 0 :: tl) = Some r.
Proof.
  induction 1 as [|c r Hc _ IH]; [done|]. simpl.
  destruct (Z.eqb_spec c 0); [done|]. by rewrite IH.
Qed.

Lemma string_at_view (mem : list Z) (st : state) (vb : list Z)
    (p : char_ptr) (s : list Z) :
  string_at mem st p = Some s -> cstring (view mem st vb p) = Some s.
Proof.
  unfold string_at. destruct p as [w|l| |off]; try done.
  simpl. by rewrite drop_nil.
Qed.

(** ** Decimal numerals *)

Lemma digit_char_spec (i : Z) :
  0 <= i <= 9 -> digit_char i = Some (48 + i).
Proof.
  intros H.
  assert (i = 0 \/ i = 1 \/ i = 2 \/ i = 3 \/ i = 4 \/ i = 5 \/ i = 6 \/
          i = 7 \/ i = 8 \/ i = 9) as Hi by lia.
  repeat (destruct Hi as [->|Hi]; [reflexivity|]). by subst.
Qed.

Lemma digit_char_negative (i : Z) : i < 0 -> digit_char i = None.
Proof.
  intros H. unfold digit_char, load.
  by destruct (Z.ltb_spec i 0); [|lia].
Qed.

Lemma digit_value_spec (i : Z) :
  0 <= i <= 9 -> digit_value (48 + i) = Some i.
Proof.
  intros H. unfold digit_value.
  destruct (Z.leb_spec 48 (48 + i)); [|lia].
  destruct (Z.leb_spec (48 + i) 57); [|lia].
  simpl. f_equal. lia.
Qed.

Lemma parse_digits_snoc (ds : list Z) (acc v i : Z) :
  parse_digits ds acc = Some v -> 0 <= i <= 9 ->
  parse_digits (ds ++ [48 + i]) acc = Some (v * 10 + i).
Proof.
  revert acc. induction ds as [|d ds IH]; intros acc; simpl.
  - intros [= ->] Hi. by rewrite digit_value_spec.
  - destruct (digit_value d); [|done]. simpl. apply IH.
Qed.

Lemma numeral_digit (v : Z) : 0 <= v <= 9 -> numeral [48 + v] v.
Proof.
  intros H. split.
  - simpl. by rewrite digit_value_spec.
  - destruct (Z.eqb_spec v 0); [by subst | lia].
Qed.

Lemma numeral_snoc (ds : list Z) (v i : Z) :
  numeral ds v -> 0 < v -> 0 <= i <= 9 ->
  numeral (ds ++ [48 + i]) (v * 10 + i).
Proof.
  intros [Hp Hd] Hv Hi. split; [by apply parse_digits_snoc|].
  destruct ds as [|d ds']; [done|]. simpl.
  destruct (Z.eqb_spec v 0); [lia|].
  by destruct (Z.eqb_spec (v * 10 + i) 0); [lia|].
Qed.

Lemma numeral_parse_unsigned (ds : list Z) (v : Z) :
  numeral ds v -> parse_unsigned ds = Some v.
Proof.
  intros [Hp Hd]. destruct ds as [|d [|d' ds']]; [done| |].
  - simpl in *. destruct (digit_value d); [|done]. simpl in Hp.
    by rewrite Z.add_0_l in Hp.
  - unfold parse_unsigned.
    destruct (Z.eqb_spec v 0); [by destruct Hd|].
    by destruct (Z.eqb_spec d 48).
Qed.

(** ** iov_int_string *)

(** The loop with room for [k] digits below [p] writes the numeral of any
    [v] below [10 ^ k] just below [p] and leaves the rest of the buffer
    as it was. *)
Lemma iov_int_string_loop_spec (k p : nat) (v : Z) (b : list Z) :
  0 <= v < 10 ^ Z.of_nat k -> (1 <= k <= p)%nat -> (p <= length b)%nat ->
  exists (p' : nat) (ds : list Z),
    iov_int_string_loop p v b = Some (p', take p' b ++ ds ++ drop p b) /\
    (p' + length ds = p)%nat /\ (1 <= length ds <= k)%nat /\ numeral ds v.
Proof.
  revert p v b. induction k as [|k IH]; intros p v b Hv Hk Hp; [lia|].
  destruct p as [|p]; [lia|]. cbn [iov_int_string_loop].
  rewrite Z.rem_mod_nonneg, Z.quot_div_nonneg by lia.
  pose proof (Z.mod_pos_bound v 10 ltac:(lia)) as Hm.
  rewrite digit_char_spec by lia. bind_step.
  rewrite store_nat by lia. bind_step.
  assert (<[p := 48 + v mod 10]> b
          = take p b ++ (48 + v mod 10) :: drop (S p) b) as Hb.
  { apply insert_take_drop. lia. }
  destruct (Z.eqb_spec (v / 10) 0) as [Hq|Hq].
  - exists p, [48 + v mod 10]. split; [by rewrite Hb|].
    split; [simpl; lia|]. split; [simpl; lia|].
    assert (v = v mod 10) as Hvm by (rewrite (Z.div_mod v 10) at 1; lia).
    rewrite Hvm at 2. apply numeral_digit; lia.
  - assert (0 < v / 10) as Hpos.
    { pose proof (Z.div_pos v 10). lia. }
    assert (v / 10 < 10 ^ Z.of_nat k) as Hlt.
    { apply Z.div_lt_upper_bound; [lia|].
      rewrite Nat2Z.inj_succ, Z.pow_succ_r in Hv by lia. lia. }
    assert (1 <= k)%nat as Hk1.
    { destruct k; [change (10 ^ Z.of_nat 0) with 1 in Hlt; lia | lia]. }
    destruct (IH p (v / 10) (<[p := 48 + v mod 10]> b)) as
      (p' & ds & Hloop & Hlen & Hds & Hnum).
    { lia. } { lia. } { rewrite length_insert. lia. }
    exists p', (ds ++ [48 + v mod 10]).
    split; [|split; [|split]].
    + rewrite Hloop. do 2 f_equal.
      rewrite Hb at 2.
      rewrite drop_app_length' by (rewrite length_take; lia).
      rewrite Hb, take_app_le by (rewrite length_take; lia).
      rewrite take_take, Nat.min_l by lia.
      by rewrite <- app_assoc.
    + rewrite length_app. simpl. lia.
    + rewrite length_app. simpl. lia.
    + rewrite (Z.div_mod v 10) at 2 by lia.
      rewrite (Z.mul_comm 10). apply numeral_snoc; [done | lia | lia].
Qed.

Lemma numeral_first_digit (d : Z) (ds : list Z) (v : Z) :
  numeral (d :: ds) v -> 48 <= d <= 57.
Proof.
  intros [Hp _]. simpl in Hp. unfold digit_value in Hp.
  destruct (Z.leb_spec 48 d), (Z.leb_spec d 57); simpl in Hp; done || lia.
Qed.

(** For every [int] but the least, [iov_int_string] leaves in the last
    bytes of a buffer of at least 11 bytes the decimal numeral of the
    value, and describes exactly those bytes in [*iov]. *)
Lemma iov_int_string_spec (v : Z) (b : list Z) (bufsz : nat) :
  INT_MIN < v <= INT_MAX -> length b = bufsz -> (11 <= bufsz)%nat ->
  exists (p : nat) (r : list Z),
    iov_int_string v b bufsz
    = Some ({| iov_base := ValBuf p; iov_len := bufsz - p |}, take p b ++ r)
    /\ (p + length r = bufsz)%nat /\ parse_decimal r = Some v.
Proof.
  unfold INT_MIN, INT_MAX. intros Hv Hb Hsz. unfold iov_int_string.
  assert (drop bufsz b = []) as Hdrop by (apply drop_ge; lia).
  destruct (Z.ltb_spec v 0) as [Hneg|Hpos].
  - rewrite wrap32_id by lia.
    destruct (iov_int_string_loop_spec 10 bufsz (- v) b)
      as (p & ds & -> & Hlen & Hds & Hnum); [lia..|].
    bind_step. rewrite Hdrop, app_nil_r.
    destruct p as [|p]; [lia|].
    rewrite store_nat by (rewrite length_app, length_take; lia).
    bind_step.
    exists p, (45 :: ds). split; [|split].
    + do 3 f_equal.
      rewrite insert_app_l by (rewrite length_take; lia).
      rewrite insert_take_drop by (rewrite length_take; lia).
      rewrite take_take, Nat.min_l by lia.
      rewrite drop_ge by (rewrite length_take; lia).
      by rewrite <- app_assoc.
    + simpl. lia.
    + simpl. rewrite (numeral_parse_unsigned _ _ Hnum).
      bind_step.
      destruct (Z.eqb_spec (- v) 0); [lia|]. f_equal. lia.
  - destruct (iov_int_string_loop_spec 10 bufsz v b)
      as (p & ds & -> & Hlen & Hds & Hnum); [lia..|].
    bind_step. rewrite Hdrop, app_nil_r.
    exists p, ds. split; [done|]. split; [done|].
    destruct ds as [|d ds']; [simpl in Hds; lia|].
    pose proof (numeral_first_digit _ _ _ Hnum) as Hd.
    unfold parse_decimal.
    destruct (Z.eqb_spec d 45); [lia|].
    by apply numeral_parse_unsigned.
Qed.

(** The negation that opens [iov_int_string] wraps on the least [int]:
    the value stays negative, so does [value % 10], and the digit is
    read from before the string constant. *)
Lemma iov_int_string_loop_negative (p : nat) (v : Z) (b : list Z) :
  Z.rem v 10 < 0 -> iov_int_string_loop p v b = None.
Proof.
  intros H. destruct p as [|p]; [done|]. simpl.
  by rewrite digit_char_negative.
Qed.

(** ** fail *)

Lemma bytes_of_length (s : string) : length (bytes_of s) = String.length s.
Proof.
  unfold bytes_of. rewrite length_map.
  induction s as [|c s IH]; simpl; [done | by rewrite IH].
Qed.

Lemma iov_bytes_STRING_IOV (mem : list Z) (st : state) (vb : list Z)
    (s : string) (cond : bool) :
  iov_bytes mem st vb (STRING_IOV s cond)
  = if cond then bytes_of s else [].
Proof.
  unfold iov_bytes, STRING_IOV. cbn [iov_len iov_base view].
  destruct cond; [|done].
  unfold literal. by rewrite <- bytes_of_length, take_app_length.
Qed.

Lemma iov_bytes_string (mem : list Z) (st : state) (vb : list Z)
    (p : char_ptr) (s : list Z) :
  string_at mem st p = Some s ->
  iov_bytes mem st vb {| iov_base := p; iov_len := length s |} = s.
Proof.
  intros H. unfold iov_bytes. cbn [iov_len iov_base].
  apply cstring_take. by apply string_at_view.
Qed.

Lemma iov_bytes_empty (mem : list Z) (st : state) (vb : list Z)
    (p : char_ptr) :
  iov_bytes mem st vb {| iov_base := p; iov_len := 0 |} = [].
Proof. unfold iov_bytes. apply take_0. Qed.

Lemma filename_len (mem : list Z) (st : state) (vb : list Z)
    (p : char_ptr) (f : list Z) :
  filename_string mem st p = Some f ->
  (if is_null p then Some 0%nat else my_strlen (view mem st vb p))
  = Some (length f) /\
  iov_bytes mem st vb {| iov_base := p; iov_len := length f |} = f.
Proof.
  unfold filename_string. destruct (is_null p).
  - intros [= <-]. split; [done|]. apply iov_bytes_empty.
  - intros H. split; [|by apply iov_bytes_string].
    by rewrite my_strlen_cstring, (string_at_view _ _ _ _ _ H).
Qed.

(** Without an item, [fail] writes the prefix, the message, the file name
    and a newline with one [writev] on descriptor 2, then exits with 2. *)
Lemma fail_plain (mem : list Z) (st : state) (message filename : char_ptr)
    (m f : list Z) :
  string_at mem st message = Some m ->
  filename_string mem st filename = Some f ->
  fail mem st message filename NULL 0
  = Some [EWritev 2 (diagnostic m f None); EExitGroup 2].
Proof.
  intros Hm Hf. unfold fail. cbv zeta.
  rewrite (my_strlen_cstring (view mem st _ message)).
  rewrite (string_at_view _ _ _ _ _ Hm).
  cbn [fmap option_fmap option_map mbind option_bind].
  destruct (filename_len _ _ (replicate 32 0) _ _ Hf) as [-> Hfb].
  bind_step. change (is_null NULL) with true.
  cbn [mbind option_bind negb map].
  rewrite !iov_bytes_STRING_IOV, !iov_bytes_empty, Hfb.
  by rewrite (iov_bytes_string _ _ _ _ _ Hm).
Qed.

(** With an item, the entries [": "], the item, ["="] and the decimal
    numeral of the value come before the newline. *)
Lemma fail_item (mem : list Z) (st : state)
    (message filename item1 : char_ptr) (value1 : Z) (m f it : list Z) :
  string_at mem st message = Some m ->
  filename_string mem st filename = Some f ->
  is_null item1 = false ->
  string_at mem st item1 = Some it ->
  INT_MIN < value1 <= INT_MAX ->
  exists num, parse_decimal num = Some value1 /\
    fail mem st message filename item1 value1
    = Some [EWritev 2 (diagnostic m f (Some (it, num))); EExitGroup 2].
Proof.
  intros Hm Hf Hnull Hit Hv. unfold fail. cbv zeta.
  rewrite (my_strlen_cstring (view mem st _ message)).
  rewrite (string_at_view _ _ _ _ _ Hm).
  cbn [fmap option_fmap option_map mbind option_bind].
  destruct (filename_len _ _ (replicate 32 0) _ _ Hf) as [-> _].
  bind_step. rewrite Hnull.
  rewrite (my_strlen_cstring (view mem st _ item1)).
  rewrite (string_at_view _ _ _ _ _ Hit).
  cbn [fmap option_fmap option_map mbind option_bind negb].
  destruct (iov_int_string_spec value1 (replicate 32 0) 32 Hv)
    as (p & num & -> & Hlen & Hnum); [done | lia |].
  exists num. split; [done|].
  cbn [mbind option_bind map]. do 3 f_equal.
  set (vb := take p (replicate 32 0) ++ num).
  destruct (filename_len _ _ vb _ _ Hf) as [_ Hfb].
  cbn [list_insert insert map].
  rewrite !iov_bytes_STRING_IOV, Hfb.
  rewrite !(iov_bytes_string _ _ vb _ _ Hm), !(iov_bytes_string _ _ vb _ _ Hit).
  unfold diagnostic. do 6 f_equal.
  unfold iov_bytes. cbn [iov_base iov_len view]. subst vb.
  rewrite drop_app_length' by (rewrite length_take, length_replicate; lia).
  rewrite take_ge by lia. done.
Qed.

(** ** The environment *)

Lemma readable_nonneg (mem : list Z) (w : Z) :
  readable mem w = true -> 0 <= w.
Proof.
  unfold readable, from_index.
  destruct (Z.ltb_spec w 0); [done | lia].
Qed.

Lemma environ_match_spec (name b s : list Z) (bp : Z) :
  Forall (fun c => c <> 0) name -> cstring b = Some s ->
  environ_match (name ++ [0]) b bp
  = Some (if starts_with (name ++ [61]) s
          then Word (bp + Z.of_nat (length name) + 1) else NULL).
Proof.
  intros Hname. revert b s bp.
  induction Hname as [|c name Hc _ IH]; intros [|cb b] s bp Hs; try done.
  - cbn [app environ_match]. simpl in Hs.
    destruct (Z.eqb_spec 0 cb) as [<-|Hcb].
    + by injection Hs as <-.
    + destruct (Z.eqb_spec cb 0); [lia|].
      destruct (cstring b) as [s'|]; [|done]. injection Hs as <-.
      cbn [starts_with andb]. rewrite (Z.eqb_sym 61 cb).
      destruct (cb =? 61); [|done]. simpl. do 2 f_equal. lia.
  - cbn [app environ_match]. simpl in Hs.
    destruct (Z.eqb_spec c 0); [done|].
    destruct (Z.eqb_spec c cb) as [<-|Hne].
    + destruct (Z.eqb_spec c 0); [done|].
      destruct (cstring b) as [s'|] eqn:Hb; [|done]. injection Hs as <-.
      rewrite (IH _ _ _ Hb). cbn [starts_with app length].
      rewrite Z.eqb_refl. cbn [andb].
      destruct (starts_with _ _); [|done]. do 2 f_equal. lia.
    + cbn [andb]. destruct (Z.eqb_spec cb 0).
      * by injection Hs as <-.
      * destruct (cstring b); [|done]. injection Hs as <-.
        cbn [starts_with app]. by destruct (Z.eqb_spec c cb).
Qed.

Lemma bytes_of_ENVAR_nonzero : Forall (fun c => c <> 0) (bytes_of ENVAR).
Proof. repeat constructor; done. Qed.

Lemma my_getenv_app (mem : list Z) (envs tl : list Z) :
  forallb (fun w => negb (w =? 0)) envs = true ->
  forallb (readable mem) envs = true ->
  my_getenv mem ENVAR (envs ++ 0 :: tl) = Some (env_value mem ENVAR envs).
Proof.
  induction envs as [|w envs IH]; [done|]. cbn [forallb].
  intros [Hw Hnz]%andb_prop [Hr Hrd]%andb_prop.
  cbn [app my_getenv env_value].
  destruct (Z.eqb_spec w 0); [done|].
  pose proof (readable_nonneg _ _ Hr) as Hw0. unfold readable in Hr.
  destruct (cstring (from_index mem w)) as [s|] eqn:Hs; [|done].
  unfold literal.
  rewrite (environ_match_spec _ _ _ _ bytes_of_ENVAR_nonzero Hs).
  bind_step. unfold defines.
  destruct (starts_with _ s).
  - rewrite bytes_of_length. unfold is_null.
    by destruct (Z.eqb_spec (w + Z.of_nat (String.length ENVAR) + 1) 0);
      [lia|].
  - change (is_null NULL) with true. cbn iota. by apply IH.
Qed.

(** ** The blocks of do_start on a well-formed image *)

Lemma cstring_until_nul (r tl : list Z) :
  cstring (r ++ 0 :: tl) = Some (until_nul r).
Proof.
  induction r as [|c r IH]; [done|]. simpl.
  destruct (c =? 0); [done|]. by rewrite IH.
Qed.

Lemma until_nul_length (l : list Z) : (length (until_nul l) <= length l)%nat.
Proof.
  induction l as [|c l IH]; simpl; [lia|].
  destruct (c =? 0); simpl; lia.
Qed.

Lemma until_nul_nonzero (l : list Z) :
  Forall (fun c => c <> 0) l -> until_nul l = l.
Proof.
  induction 1 as [|c l Hc _ IH]; [done|]. simpl.
  destruct (Z.eqb_spec c 0); [done|]. by rewrite IH.
Qed.

Lemma resolve_execfn_given (k : kernel) (stack : list Z) (argv : Z)
    (st : state) (e : char_ptr) :
  is_null e = false -> resolve_execfn k stack argv st e = Some (e, st, []).
Proof. intros H. unfold resolve_execfn. by rewrite H. Qed.

Lemma resolve_execfn_readlink (k : kernel) (stack : list Z) (argv : Z)
    (st : state) (e : char_ptr) (target : list Z) :
  is_null e = true -> k_readlink k = inr target ->
  (1 <= length (buf st))%nat ->
  let n := Nat.min (length target) (length (buf st) - 1) in
  resolve_execfn k stack argv st e
  = Some (Buf,
          {| buf := take n target ++ 0 :: drop (S n) (buf st);
             my_errno := my_errno st |},
          [EReadlink "/proc/self/exe" (length (buf st) - 1)]).
Proof.
  intros He Hk Hlen n. unfold resolve_execfn, sys_readlink.
  rewrite He, Hk. fold n.
  destruct (Z.leb_spec 0 (Z.of_nat n)); [|lia].
  cbn [buf my_errno].
  assert (length (take n target) = n) as Htake
    by (rewrite length_take; lia).
  rewrite store_nat by (rewrite length_app, Htake, length_drop; lia).
  bind_step. do 4 f_equal.
  rewrite insert_app_r_alt by lia.
  rewrite Htake, Nat.sub_diag.
  destruct (lookup_lt_is_Some_2 (buf st) n) as [x Hx]; [lia|].
  by rewrite (drop_S _ _ _ Hx).
Qed.

Lemma resolve_execfn_argv0 (k : kernel) (stack : list Z) (argv : Z)
    (st : state) (e : char_ptr) (err a0 : Z) :
  is_null e = true -> k_readlink k = inl err ->
  load stack argv = Some a0 ->
  resolve_execfn k stack argv st e
  = Some (Word a0, {| buf := buf st; my_errno := err |},
          [EReadlink "/proc/self/exe" (length (buf st) - 1)]).
Proof.
  intros He Hk Ha. unfold resolve_execfn, sys_readlink.
  rewrite He, Hk. cbn [buf my_errno]. change (0 <=? -1) with false.
  cbn iota. by rewrite Z.add_0_r, Ha.
Qed.

Lemma layout_argv0 (im : image) : load (layout im) 1 = Some (im_argv0 im).
Proof.
  rewrite load_from_index, layout_argv by lia.
  unfold im_argv0. by destruct (im_args im).
Qed.

Lemma from_index_succ {A} (l : list A) (i : Z) (x : A) (tl : list A) :
  0 <= i -> from_index l i = x :: tl -> from_index l (i + 1) = tl.
Proof.
  unfold from_index. intros Hi.
  destruct (Z.ltb_spec i 0); [lia|]. destruct (Z.ltb_spec (i + 1) 0); [lia|].
  intros Hd. replace (Z.to_nat (i + 1)) with (Z.to_nat i + 1)%nat by lia.
  by rewrite <- drop_drop, Hd.
Qed.

Lemma copy_args_spec (stack : list Z) (argv : Z) (ws tl : list Z) (i : Z)
    (pre post : list (option char_ptr)) :
  0 <= argv + i -> Z.of_nat (length pre) = 2 + i ->
  from_index stack (argv + i) = ws ++ tl ->
  copy_args stack argv (length ws) i
    (pre ++ replicate (length ws) None ++ post)
  = Some (pre ++ map (fun w => Some (Word w)) ws ++ post).
Proof.
  revert i pre. induction ws as [|w ws IH]; intros i pre Hi Hpre Hws; [done|].
  cbn [length copy_args replicate app map].
  rewrite load_from_index, Hws by done. cbn [head mbind option_bind app].
  rewrite <- Hpre.
  rewrite store_nat by (rewrite length_app; simpl; lia).
  bind_step.
  rewrite insert_app_r_alt, Nat.sub_diag by lia. cbn [insert list_insert].
  specialize (IH (i + 1) (pre ++ [Some (Word w)])).
  rewrite <- !app_assoc in IH. cbn [app] in IH.
  apply IH.
  - lia.
  - rewrite length_app. simpl. lia.
  - replace (argv + (i + 1)) with (argv + i + 1) by lia.
    by apply (from_index_succ _ _ w).
Qed.

Lemma store_0 {A} (x y : A) (l : list A) :
  store (y :: l) 0 x = Some (x :: l).
Proof. apply (store_nat (y :: l) 0 x). simpl. lia. Qed.

Lemma store_1 {A} (x y0 y1 : A) (l : list A) :
  store (y0 :: y1 :: l) 1 x = Some (y0 :: x :: l).
Proof. apply (store_nat (y0 :: y1 :: l) 1 x). simpl. lia. Qed.

Lemma store_2 {A} (x y0 y1 y2 : A) (l : list A) :
  store (y0 :: y1 :: y2 :: l) 2 x = Some (y0 :: y1 :: x :: l).
Proof. apply (store_nat (y0 :: y1 :: y2 :: l) 2 x). simpl. lia. Qed.

Lemma redirect_layout (mem : list Z) (k : kernel) (im : image)
    (st : state) (platform execfn : char_ptr) :
  wf_image im = true ->
  forallb (readable mem) (im_envs im) = true ->
  redirect mem k (layout im) (im_argc im) 1 (im_argc im + 2) st
    platform execfn
  = redirect_of mem k im st platform execfn.
Proof.
  intros Hwf Henv.
  pose proof Hwf as (Hc0 & Hc & _ & _)%wf_image_inv.
  apply andb_prop in Hwf as [[_ Hnz]%andb_prop _].
  unfold redirect, redirect_of.
  rewrite layout_envp, my_getenv_app by done.
  bind_step. rewrite wrap32_id by lia.
  destruct (Z.leb_spec (im_argc im + 4) 0); [lia|].
  destruct (is_null (env_value mem ENVAR (im_envs im))); [done|].
  set (loader := env_value mem ENVAR (im_envs im)).
  assert (length (drop 1 (im_args im ++ [0])) = length (im_args im)) as Hlen.
  { rewrite length_drop, length_app. simpl. lia. }
  replace (Z.to_nat (im_argc im + 4))
    with (3 + (length (drop 1 (im_args im ++ [0%Z])) + 1))%nat
    by (rewrite Hlen; unfold im_argc; lia).
  rewrite !replicate_add. cbn [replicate app].
  rewrite store_0. bind_step.
  rewrite store_1. bind_step.
  rewrite store_2. bind_step.
  replace (Z.to_nat (im_argc im))
    with (length (drop 1 (im_args im ++ [0])))
    by (rewrite Hlen; unfold im_argc; lia).
  pose proof (copy_args_spec (layout im) 1 (drop 1 (im_args im ++ [0]))
    (im_envs im ++ 0 :: aux_words (im_aux im) ++ AT_NULL ::
     im_end_val im :: im_above im) 1
    [Some loader; Some platform; Some execfn] [None]) as Hcopy.
  cbn [app] in Hcopy. rewrite Hcopy.
  - done.
  - lia.
  - done.
  - change (from_index (layout im) (1 + 1))
      with (drop 1 (im_args im ++ 0 :: im_envs im ++ 0 ::
                    aux_words (im_aux im) ++ AT_NULL ::
                    im_end_val im :: im_above im)).
    rewrite (cons_middle 0 (im_args im)), app_assoc.
    apply drop_app_le. rewrite length_app. simpl. lia.
Qed.

(** [do_start_context] on a laid-out block, past the decoding. *)
Lemma do_start_context_layout (k : kernel) (im : image) :
  wf_image im = true ->
  do_start_context k (layout im)
  = '(execfn, st, ev) ←
      resolve_execfn k (layout im) 1 initial_state (execfn (im_context im));
    Some (im_decoded im, im_context im, execfn, st, ev).
Proof.
  intros Hwf. unfold do_start_context.
  rewrite (decode_layout _ Hwf). fold (im_decoded im).
  bind_step. cbn [im_decoded auxv argv].
  rewrite layout_auxv.
  apply wf_image_inv in Hwf as (_ & _ & _ & Haux).
  by rewrite (auxv_loop_app _ _ _ Haux).
Qed.

Lemma resolve_execfn_layout (k : kernel) (im : image) :
  resolve_execfn k (layout im) 1 initial_state (execfn (im_context im))
  = Some (im_execfn k im).
Proof.
  unfold im_execfn.
  assert (length (buf initial_state) - 1 = PATH_MAX)%nat as Hlen.
  { unfold initial_state. cbn [buf]. rewrite length_replicate. lia. }
  destruct (is_null (execfn (im_context im))) eqn:He.
  - destruct (k_readlink k) as [err|target] eqn:Hk.
    + rewrite (resolve_execfn_argv0 _ _ _ _ _ err (im_argv0 im));
        [|done|done|apply layout_argv0].
      by rewrite Hlen.
    + rewrite (resolve_execfn_readlink _ _ _ _ _ target); [|done|done|].
      * rewrite Hlen. do 4 f_equal.
        unfold initial_state. cbn [buf].
        rewrite drop_replicate.
        replace (PATH_MAX + 1 - Nat.min (length target) PATH_MAX)%nat
          with (S (PATH_MAX + 1 - S (Nat.min (length target) PATH_MAX)))
          by lia.
        done.
      * unfold initial_state. cbn [buf]. rewrite length_replicate. lia.
  - by apply resolve_execfn_given.
Qed.

Lemma do_start_context_image (k : kernel) (im : image) :
  wf_image im = true ->
  do_start_context k (layout im)
  = let '(execfn, st, ev) := im_execfn k im in
    Some (im_decoded im, im_context im, execfn, st, ev).
Proof.
  intros Hwf. rewrite (do_start_context_layout _ _ Hwf).
  rewrite resolve_execfn_layout. bind_step.
  by destruct (im_execfn k im) as [[e st] ev].
Qed.

(** [do_start] on a well-formed image, in terms of the image. *)
Lemma do_start_image (a : arch) (mem : list Z) (k : kernel) (im : image) :
  wf_image im = true ->
  do_start a mem k (layout im)
  = let '(execfn, st, ev) := im_execfn k im in
    if secure (im_context im) then
      tr ← fail mem st (Lit "refusing secure exec of ") execfn NULL 0;
      Some (ev ++ tr)
    else
      tr ← redirect mem k (layout im) (im_argc im) 1 (im_argc im + 2) st
             (resolve_platform a (platform (im_context im))) execfn;
      Some (ev ++ tr).
Proof.
  intros Hwf. unfold do_start.
  rewrite (do_start_context_image _ _ Hwf).
  by destruct (im_execfn k im) as [[e st] ev].
Qed.

(** ** The ways a run ends *)

Lemma readable_string_at (mem : list Z) (st : state) (w : Z) :
  (w =? 0) || readable mem w = true ->
  exists f, filename_string mem st (Word w) = Some f.
Proof.
  unfold filename_string, string_at, readable. cbn [is_null view].
  destruct (w =? 0); [by eexists|]. cbn [orb].
  destruct (cstring (from_index mem w)); [by eexists | done].
Qed.

Lemma im_execfn_readable (mem : list Z) (k : kernel) (im : image) :
  names_readable mem im = true ->
  exists f, filename_string mem (im_execfn k im).1.2 (im_execfn k im).1.1
            = Some f.
Proof.
  unfold names_readable. intros [H0 Hx]%andb_prop. unfold im_execfn.
  unfold im_context. rewrite context_of_execfn. cbn [execfn initial_context].
  destruct (last_value AT_EXECFN (im_aux im)) as [v|].
  - destruct (is_null (Word v)) eqn:Hv.
    + destruct (k_readlink k); cbn [fst snd].
      * by apply readable_string_at.
      * unfold filename_string, string_at. cbn [is_null view buf].
        replace (PATH_MAX + 1 - Nat.min (length l) PATH_MAX)%nat
          with (S (PATH_MAX - Nat.min (length l) PATH_MAX)) by lia.
        cbn [replicate]. rewrite cstring_until_nul. by eexists.
    + cbn [fst snd]. by apply readable_string_at.
  - change (is_null NULL) with true. cbn iota.
    destruct (k_readlink k); cbn [fst snd].
    + by apply readable_string_at.
    + unfold filename_string, string_at. cbn [is_null view buf].
      replace (PATH_MAX + 1 - Nat.min (length l) PATH_MAX)%nat
        with (S (PATH_MAX - Nat.min (length l) PATH_MAX)) by lia.
      cbn [replicate]. rewrite cstring_until_nul. by eexists.
Qed.

Lemma string_at_literal (mem : list Z) (st : state) (s : string) :
  Forall (fun c => c <> 0) (bytes_of s) ->
  string_at mem st (Lit s) = Some (bytes_of s).
Proof. intros H. unfold string_at, view, literal. by apply cstring_app. Qed.

Lemma string_at_refusing (mem : list Z) (st : state) :
  string_at mem st (Lit "refusing secure exec of ") = Some refusing.
Proof. apply string_at_literal. repeat constructor; done. Qed.

Lemma string_at_missing_loader (mem : list Z) (st : state) :
  string_at mem st
    (Lit ("environment variable " ++ ENVAR
          ++ " must be set to run a NaCl binary directly"))
  = Some missing_loader.
Proof. apply string_at_literal. repeat constructor; done. Qed.

Lemma string_at_failed_exec (mem : list Z) (st : state) :
  string_at mem st (Lit "failed to execute ") = Some failed_exec.
Proof. apply string_at_literal. repeat constructor; done. Qed.

Lemma string_at_errno (mem : list Z) (st : state) :
  string_at mem st (Lit "errno") = Some (bytes_of "errno").
Proof. apply string_at_literal. repeat constructor; done. Qed.

Create HintDb nacl_strings.

#[local] Hint Resolve string_at_refusing string_at_missing_loader
  string_at_failed_exec string_at_errno : nacl_strings.

Lemma cstring_from_index_add (mem : list Z) (w : Z) (s : list Z) (n : nat) :
  cstring (from_index mem w) = Some s -> (n <= length s)%nat ->
  cstring (from_index mem (w + Z.of_nat n)) = Some (drop n s).
Proof.
  intros Hs.
  assert (0 <= w) as Hw.
  { apply (readable_nonneg mem). unfold readable. by rewrite Hs. }
  revert w s Hs Hw. induction n as [|n IH]; intros w s Hs Hw Hn.
  - by rewrite Z.add_0_r.
  - destruct s as [|c s]; [simpl in Hn; lia|].
    destruct (from_index mem w) as [|c' tl] eqn:Hfi; [done|].
    simpl in Hs. destruct (c' =? 0); [done|].
    destruct (cstring tl) as [s'|] eqn:Htl; [|done].
    injection Hs as -> ->.
    replace (w + Z.of_nat (S n)) with (w + 1 + Z.of_nat n) by lia.
    apply IH; [|lia|simpl in Hn; lia].
    by rewrite (from_index_succ _ _ _ _ Hw Hfi).
Qed.

Lemma starts_with_length (p s : list Z) :
  starts_with p s = true -> (length p <= length s)%nat.
Proof.
  revert s. induction p as [|c p IH]; intros [|d s]; simpl; try done; [lia|].
  intros [_ H]%andb_prop. apply IH in H. lia.
Qed.

(** The loader found in the environment is the address of a string: what
    follows the equals sign. *)
Lemma env_value_string (mem : list Z) (st : state) (envs : list Z) :
  is_null (env_value mem ENVAR envs) = false ->
  exists v, filename_string mem st (env_value mem ENVAR envs) = Some v.
Proof.
  induction envs as [|w envs IH]; [done|]. cbn [env_value].
  destruct (cstring (from_index mem w)) as [s|] eqn:Hs; [|done].
  destruct (defines ENVAR s) eqn:Hd; [|done].
  intros Hnull. unfold filename_string. rewrite Hnull.
  unfold string_at. cbn [view].
  apply starts_with_length in Hd. rewrite length_app, bytes_of_length in Hd.
  replace (w + Z.of_nat (String.length ENVAR) + 1)
    with (w + Z.of_nat (String.length ENVAR + 1)) by lia.
  rewrite (cstring_from_index_add _ _ _ _ Hs) by (cbn [length] in Hd; lia).
  by eexists.
Qed.

(** [fail] without an item as a function of the two strings it reads. *)
Lemma fail_plain_eval (mem : list Z) (st : state)
    (message filename : char_ptr) :
  fail mem st message filename NULL 0
  = m ← cstring (view mem st (replicate 32 0) message);
    f ← (if is_null filename then Some []
         else cstring (view mem st (replicate 32 0) filename));
    Some (report m f None).
Proof.
  unfold fail. cbv zeta.
  rewrite (my_strlen_cstring (view mem st _ message)).
  destruct (cstring (view mem st _ message)) as [m|] eqn:Hm; [|done].
  cbn [fmap option_fmap option_map mbind option_bind].
  change (is_null NULL) with true. cbn [negb].
  destruct (is_null filename).
  - cbn [mbind option_bind map].
    rewrite !iov_bytes_STRING_IOV, !iov_bytes_empty.
    unfold iov_bytes at 1. cbn [iov_len iov_base].
    by rewrite (cstring_take _ _ Hm).
  - rewrite (my_strlen_cstring (view mem st _ filename)).
    destruct (cstring (view mem st _ filename)) as [f|] eqn:Hf; [|done].
    cbn [fmap option_fmap option_map mbind option_bind map].
    rewrite !iov_bytes_STRING_IOV, !iov_bytes_empty.
    unfold iov_bytes. cbn [iov_len iov_base].
    by rewrite (cstring_take _ _ Hm), (cstring_take _ _ Hf).
Qed.

(** The calls behind the executable name: none, or the one [readlink]. *)
Lemma im_execfn_events (k : kernel) (im : image) :
  (im_execfn k im).2 = [] \/
  (im_execfn k im).2 = [EReadlink "/proc/self/exe" PATH_MAX].
Proof.
  unfold im_execfn. destruct (is_null _); [|by left].
  destruct (k_readlink k); by right.
Qed.

Section Run.

Context (a : arch) (mem : list Z) (k : kernel) (im : image).
Hypothesis Hwf : wf_image im = true.

(** The run when the [secure] local is set. *)
Lemma do_start_secure (f : list Z) :
  secure (im_context im) = true ->
  filename_string mem (im_execfn k im).1.2 (im_execfn k im).1.1 = Some f ->
  do_start a mem k (layout im)
  = Some ((im_execfn k im).2 ++ report refusing f None).
Proof.
  intros Hsec Hf. rewrite (do_start_image _ _ _ _ Hwf), Hsec.
  destruct (im_execfn k im) as [[e st] ev]. cbn [fst snd] in *.
  rewrite (fail_plain _ _ _ _ refusing f); auto with nacl_strings.
Qed.

Hypothesis Henv : forallb (readable mem) (im_envs im) = true.
Hypothesis Hsec : secure (im_context im) = false.

(** The run when the [secure] local is clear. *)
Lemma do_start_redirect :
  do_start a mem k (layout im)
  = tr ← redirect_of mem k im (im_execfn k im).1.2
           (resolve_platform a (platform (im_context im)))
           (im_execfn k im).1.1;
    Some ((im_execfn k im).2 ++ tr).
Proof.
  rewrite (do_start_image _ _ _ _ Hwf), Hsec.
  destruct (im_execfn k im) as [[e st] ev]. cbn [fst snd].
  by rewrite (redirect_layout _ _ _ _ _ _ Hwf Henv).
Qed.

(** No loader in the environment. *)
Lemma do_start_missing_loader :
  is_null (env_value mem ENVAR (im_envs im)) = true ->
  do_start a mem k (layout im)
  = Some ((im_execfn k im).2 ++ report missing_loader [] None).
Proof.
  intros Hnull. rewrite do_start_redirect.
  unfold redirect_of. rewrite Hnull.
  rewrite (fail_plain _ _ _ _ missing_loader []); auto with nacl_strings.
Qed.

(** A loader in the environment: [execve], and when that returns, the
    report of its errno. *)
Lemma do_start_execve :
  is_null (env_value mem ENVAR (im_envs im)) = false ->
  match k_execve k with
  | Some e => INT_MIN < e <= INT_MAX
  | None => True
  end ->
  let loader := env_value mem ENVAR (im_envs im) in
  let call :=
    EExecve loader
      (new_argv_of im loader
         (resolve_platform a (platform (im_context im)))
         (im_execfn k im).1.1)
      (im_argc im + 2) in
  exists tail,
    do_start a mem k (layout im)
    = Some ((im_execfn k im).2 ++ call :: tail) /\
    match k_execve k with
    | None => tail = []
    | Some e =>
        exists v num,
          filename_string mem (im_execfn k im).1.2 loader = Some v /\
          parse_decimal num = Some e /\
          tail = report failed_exec v (Some (bytes_of "errno", num))
    end.
Proof.
  intros Hnull He loader call. rewrite do_start_redirect.
  unfold redirect_of. rewrite Hnull. fold loader.
  fold call. destruct (k_execve k) as [e|].
  - set (st := (im_execfn k im).1.2).
    destruct (env_value_string mem st _ Hnull) as [v Hv]. fold loader in Hv.
    destruct (fail_item mem {| buf := buf st; my_errno := e |}
                (Lit "failed to execute ") loader (Lit "errno") e
                failed_exec v (bytes_of "errno")) as (num & Hnum & ->);
      auto with nacl_strings.
    exists (report failed_exec v (Some (bytes_of "errno", num))).
    split; [done|]. by exists v, num.
  - by exists [].
Qed.

End Run.

(** ** The stack decoder *)

(** C8.  For every well-formed initial stack block with leading count N,
    [decode] succeeds with [argc = N]; the N words at [argv] are the
    argument pointers and the word after them is null; [envp] is the word
    after that null; the walk over [envp] stops at [ep], the first null
    word at or after [envp], with exactly the environment pointers in
    between; [auxv] is the word after it; and the walk over [auxv] stops
    at [av], the first entry whose type is [AT_NULL], after exactly the
    entries of the vector. *)
Theorem decode_well_formed_block (im : image) :
  wf_image im = true ->
  exists d, decode (layout im) = Some d /\
    argc d = im_argc im /\
    take (length (im_args im)) (from_index (layout im) (argv d))
      = im_args im /\
    load (layout im) (argv d + argc d) = Some 0 /\
    envp d = argv d + argc d + 1 /\
    (envp d <= ep d /\ load (layout im) (ep d) = Some 0 /\
     forall j, envp d <= j < ep d ->
       exists w, load (layout im) j = Some w /\ w <> 0) /\
    take (Z.to_nat (ep d - envp d)) (from_index (layout im) (envp d))
      = im_envs im /\
    auxv d = ep d + 1 /\
    (exists n : nat, av d = auxv d + 2 * Z.of_nat n /\
       load (layout im) (av d) = Some AT_NULL /\
       forall j : nat, (j < n)%nat ->
         exists t, load (layout im) (auxv d + 2 * Z.of_nat j) = Some t /\
                   t <> AT_NULL) /\
    take (Z.to_nat (av d - auxv d)) (from_index (layout im) (auxv d))
      = aux_words (im_aux im).
Proof.
  intros Hwf. exists (im_decoded im).
  pose proof (decode_layout _ Hwf) as Hd. fold (im_decoded im) in Hd.
  destruct (decode_sound _ _ Hd) as (_ & _ & _ & Henv & _ & Haux).
  pose proof Hwf as (Hc0 & _)%wf_image_inv.
  split; [done|]. cbn [im_decoded argc argv envp ep auxv av] in *.
  split; [done|].
  split; [by rewrite layout_argv, take_app_length|].
  split.
  { replace (1 + im_argc im) with (1 + Z.of_nat (length (im_args im)))
      by done.
    rewrite <- from_index_lookup, layout_argv by lia.
    apply list_lookup_middle. done. }
  split; [lia|]. split; [done|].
  split.
  { rewrite layout_envp.
    replace (Z.to_nat _) with (length (im_envs im)) by lia.
    by rewrite take_app_length. }
  split; [done|]. split; [done|].
  rewrite layout_auxv.
  replace (Z.to_nat _) with (length (aux_words (im_aux im)))
    by (rewrite aux_words_length; lia).
  by rewrite take_app_length.
Qed.

Lemma decode_well_formed_block_witness :
  wf_image sample_image = true /\
  exists d, decode (layout sample_image) = Some d /\ argc d = 3.
Proof.
  split; [reflexivity|].
  destruct (decode_well_formed_block sample_image eq_refl)
    as (d & Hd & Hargc & _).
  exists d. split; [exact Hd | exact Hargc].
Defined.

(** ** Secure execution *)

Lemma im_context_secure (im : image) :
  secure (im_context im) = true <-> last_value AT_SECURE (im_aux im) <> Some 0.
Proof.
  unfold im_context. rewrite context_of_secure. cbn [secure initial_context].
  destruct (last_value AT_SECURE (im_aux im)) as [v|]; [|done].
  destruct (Z.eqb_spec v 0) as [->|Hv]; simpl; [done|].
  split; [|done]. intros _ [= ?]. done.
Qed.

(** C1.  For every start on a well-formed image whose candidate file names
    are strings: the [secure] local after the walk over the auxiliary
    vector is true unless the last [AT_SECURE] entry has the value zero
    (so it is true when there is no such entry, and when the last one is
    not zero); and whenever it is true the run consists of the system
    calls behind the executable name followed by the one report
    "refusing secure exec of " with the file name and [exit_group(2)], and
    contains no [execve]. *)
Theorem secure_exec_refused (a : arch) (mem : list Z) (k : kernel)
    (im : image) :
  wf_image im = true -> names_readable mem im = true ->
  exists d c e st ev,
    do_start_context k (layout im) = Some (d, c, e, st, ev) /\
    (secure c = true <-> last_value AT_SECURE (im_aux im) <> Some 0) /\
    (secure c = true ->
     exists f,
       filename_string mem st e = Some f /\
       do_start a mem k (layout im) = Some (ev ++ report refusing f None) /\
       forallb (fun x => negb (is_execve x)) (ev ++ report refusing f None)
       = true).
Proof.
  intros Hwf Hnames.
  pose proof (do_start_context_image k im Hwf) as Hctx.
  destruct (im_execfn_readable mem k im Hnames) as [f Hf].
  pose proof (im_execfn_events k im) as Hev.
  destruct (im_execfn k im) as [[e st] ev] eqn:Hx. cbn [fst snd] in *.
  exists (im_decoded im), (im_context im), e, st, ev.
  split; [done|]. split; [apply im_context_secure|].
  intros Hsec. exists f. split; [done|]. split.
  - pose proof (do_start_secure a mem k im Hwf f Hsec) as Hrun.
    rewrite Hx in Hrun. by apply Hrun.
  - by destruct Hev as [-> | ->].
Qed.

Lemma secure_exec_refused_witness :
  wf_image sample_secure_image = true /\
  names_readable sample_mem sample_secure_image = true /\
  do_start x86_64 sample_mem sample_kernel (layout sample_secure_image)
  = Some (report refusing (bytes_of "/path/to/prog") None).
Proof.
  split; [reflexivity|]. split; [reflexivity|].
  destruct (secure_exec_refused x86_64 sample_mem sample_kernel
              sample_secure_image eq_refl eq_refl)
    as (d & c & e & st & ev & Hctx & Hflag & Hrun).
  vm_compute in Hctx. injection Hctx as <- <- <- <- <-.
  destruct (Hrun eq_refl) as (f & Hf & -> & _).
  vm_compute in Hf. injection Hf as <-. reflexivity.
Defined.

(** C9.  Two starts that differ only in their environments - the
    environment pointers, what lies above the block, and a memory that
    may differ anywhere except at the candidate file names - run alike
    when the [secure] local is set: the run of [do_start] is a function
    of the arguments, the auxiliary vector and the kernel's answer to
    [readlink] alone, whether or not the environment strings can even be
    read. *)
Theorem secure_exec_ignores_environment (a : arch) (k : kernel)
    (args : list Z) (aux : list (Z * Z)) (endv : Z)
    (envs1 envs2 above1 above2 mem1 mem2 : list Z) :
  let im1 := Image args envs1 aux endv above1 in
  let im2 := Image args envs2 aux endv above2 in
  wf_image im1 = true -> wf_image im2 = true ->
  last_value AT_SECURE aux <> Some 0 ->
  (forall w, w = hd 0 args \/ last_value AT_EXECFN aux = Some w ->
     cstring (from_index mem1 w) = cstring (from_index mem2 w)) ->
  do_start a mem1 k (layout im1) = do_start a mem2 k (layout im2).
Proof.
  intros im1 im2 Hwf1 Hwf2 Hsec Hmem.
  assert (secure (im_context im1) = true) as Hs1 by by apply im_context_secure.
  assert (secure (im_context im2) = true) as Hs2 by by apply im_context_secure.
  rewrite (do_start_image _ _ _ _ Hwf1), (do_start_image _ _ _ _ Hwf2).
  rewrite Hs1, Hs2.
  change (im_execfn k im2) with (im_execfn k im1).
  assert (forall st,
    (if is_null (im_execfn k im1).1.1 then Some []
     else cstring (view mem1 st (replicate 32 0) (im_execfn k im1).1.1))
    = (if is_null (im_execfn k im1).1.1 then Some []
       else cstring (view mem2 st (replicate 32 0) (im_execfn k im1).1.1)))
    as Hview.
  { intros st. unfold im_execfn, im_context.
    rewrite context_of_execfn. cbn [execfn initial_context].
    change (im_aux im1) with aux.
    destruct (last_value AT_EXECFN aux) as [v|] eqn:Hv.
    - destruct (is_null (Word v)) eqn:Hnull.
      + destruct (k_readlink k); cbn [fst snd]; [|done].
        destruct (is_null (Word (im_argv0 im1))); [done|].
        cbn [view]. apply Hmem. by left.
      + cbn [fst snd]. rewrite Hnull. cbn [view]. apply Hmem. by right.
    - change (is_null NULL) with true. cbn iota.
      destruct (k_readlink k); cbn [fst snd]; [|done].
      destruct (is_null (Word (im_argv0 im1))); [done|].
      cbn [view]. apply Hmem. by left. }
  destruct (im_execfn k im1) as [[e st] ev]. cbn [fst snd] in Hview.
  rewrite !fail_plain_eval. cbn [view]. by rewrite Hview.
Qed.

Lemma secure_exec_ignores_environment_witness :
  do_start x86_64 sample_mem sample_kernel (layout sample_secure_image)
  = do_start x86_64 (take 66 sample_mem) sample_kernel
      (layout (Image [1; 10; 12] [5; 6; 7] (im_aux sample_secure_image)
                 0 [9])).
Proof.
  apply (secure_exec_ignores_environment x86_64 sample_kernel [1; 10; 12]
           (im_aux sample_secure_image) 0 [66; 14] [5; 6; 7] [] [9]
           sample_mem (take 66 sample_mem)).
  - reflexivity.
  - reflexivity.
  - vm_compute. discriminate.
  - intros w [-> | [= <-]]; reflexivity.
Defined.

(** ** The loader variable *)

Lemma undefined_in_inv (mem : list Z) (name : string) (envs : list Z) :
  undefined_in mem name envs = true ->
  forallb (readable mem) envs = true /\ env_value mem name envs = NULL.
Proof.
  induction envs as [|w envs IH]; [done|]. cbn [undefined_in forallb].
  intros [Hw Hrest]%andb_prop. destruct (IH Hrest) as [Hr Hv].
  cbn [env_value]. unfold readable at 1.
  destruct (cstring (from_index mem w)); [|done].
  by destruct (defines name l).
Qed.

(** C4, as the code has it.  On a well-formed image whose last
    [AT_SECURE] entry has the value zero and whose environment strings do
    not define NACL_INTERP_LOADER, the run consists of the system calls
    behind the executable name followed by the one report that the
    variable must be set and [exit_group(2)]; it contains no [execve]. *)
Theorem missing_loader_reported (a : arch) (mem : list Z) (k : kernel)
    (im : image) :
  wf_image im = true ->
  last_value AT_SECURE (im_aux im) = Some 0 ->
  undefined_in mem ENVAR (im_envs im) = true ->
  exists ev,
    do_start a mem k (layout im)
    = Some (ev ++ report missing_loader [] None) /\
    forallb (fun x => negb (is_execve x)) (ev ++ report missing_loader [] None)
    = true.
Proof.
  intros Hwf Hsec [Henv Hval]%undefined_in_inv.
  assert (secure (im_context im) = false) as Hs.
  { destruct (secure (im_context im)) eqn:Hs; [|done].
    by apply im_context_secure in Hs. }
  exists (im_execfn k im).2. split.
  - apply do_start_missing_loader; [done..|]. by rewrite Hval.
  - by destruct (im_execfn_events k im) as [-> | ->].
Qed.

Lemma missing_loader_reported_witness :
  wf_image sample_unset_image = true /\
  last_value AT_SECURE (im_aux sample_unset_image) = Some 0 /\
  undefined_in sample_mem ENVAR (im_envs sample_unset_image) = true /\
  exists ev,
    do_start x86_64 sample_mem sample_kernel (layout sample_unset_image)
    = Some (ev ++ report missing_loader [] None) /\
    forallb (fun x => negb (is_execve x)) (ev ++ report missing_loader [] None)
    = true.
Proof.
  split; [reflexivity|]. split; [reflexivity|]. split; [reflexivity|].
  apply (missing_loader_reported x86_64 sample_mem sample_kernel
           sample_unset_image); reflexivity.
Defined.

(** C4, as stated, fails: with no [AT_SECURE] entry in the auxiliary
    vector and no loader variable in the environment the run reports
    "refusing secure exec of ", not the missing variable. *)
Lemma missing_loader_counterexample :
  wf_image sample_bare_image = true /\
  undefined_in sample_mem ENVAR (im_envs sample_bare_image) = true /\
  do_start x86_64 sample_mem sample_kernel (layout sample_bare_image)
  = Some ([EReadlink "/proc/self/exe" PATH_MAX]
          ++ report refusing (bytes_of "/usr/bin/prog") None) /\
  ~ exists ev,
      do_start x86_64 sample_mem sample_kernel (layout sample_bare_image)
      = Some (ev ++ report missing_loader [] None).
Proof.
  split; [reflexivity|]. split; [reflexivity|].
  assert (do_start x86_64 sample_mem sample_kernel (layout sample_bare_image)
          = Some ([EReadlink "/proc/self/exe" PATH_MAX]
                  ++ report refusing (bytes_of "/usr/bin/prog") None)) as Hrun
    by (vm_compute; reflexivity).
  split; [exact Hrun|].
  intros [ev Hev]. rewrite Hrun in Hev. injection Hev as Hev.
  destruct ev as [|e1 [|e2 [|e3 ev]]]; vm_compute in Hev; try discriminate.
  injection Hev as _ _ Hev. by destruct ev.
Qed.

(** ** The new argument vector *)

Lemma argv_view_app (v : list char_ptr) (tl : list (option char_ptr)) :
  forallb (fun p => negb (is_null p)) v = true ->
  argv_view (map Some v ++ Some NULL :: tl) = Some v.
Proof.
  induction v as [|p v IH]; [done|]. cbn [forallb map app argv_view].
  intros [Hp Hv]%andb_prop. destruct (is_null p); [done|].
  by rewrite (IH Hv).
Qed.

Lemma im_execfn_not_null (k : kernel) (im : image) :
  im_argv0 im <> 0 -> is_null (im_execfn k im).1.1 = false.
Proof.
  intros H0. unfold im_execfn.
  destruct (is_null (execfn (im_context im))) eqn:He; [|done].
  destruct (k_readlink k); [|done]. cbn [fst snd is_null].
  by destruct (Z.eqb_spec (im_argv0 im) 0).
Qed.

Lemma resolve_platform_not_null (a : arch) (p : char_ptr) :
  is_null (resolve_platform a p) = false.
Proof. unfold resolve_platform. by destruct (is_null p) eqn:Hp. Qed.

Lemma new_argv_of_nonempty (im : image) (loader platform execfn : char_ptr) :
  im_args im <> [] ->
  new_argv_of im loader platform execfn
  = map Some ([loader; platform; execfn] ++ map Word (drop 1 (im_args im)))
    ++ [Some NULL; None].
Proof.
  intros Hargs. unfold new_argv_of.
  destruct (im_args im) as [|w ws]; [done|].
  cbn [app drop map]. rewrite drop_0, !map_app, map_map, <- app_assoc. done.
Qed.

Lemma secure_clear (im : image) :
  last_value AT_SECURE (im_aux im) = Some 0 -> secure (im_context im) = false.
Proof.
  intros H. destruct (secure (im_context im)) eqn:Hs; [|done].
  by apply im_context_secure in Hs.
Qed.

(** C2, as the code has it.  On a well-formed image with at least one
    argument, no null argument pointer, [secure] clear and the loader in
    the environment, [execve] is called with the loader as its path, the
    original [envp], and an array that holds the loader, the platform, the
    executable name and [argv[1]] to [argv[argc - 1]] in their order,
    then the null terminator (and one more slot, never assigned): argc + 2
    pointers before the terminator. *)
Theorem new_argv_construction (a : arch) (mem : list Z) (k : kernel)
    (im : image) :
  wf_image im = true ->
  forallb (readable mem) (im_envs im) = true ->
  last_value AT_SECURE (im_aux im) = Some 0 ->
  forallb (fun w => negb (w =? 0)) (im_args im) = true ->
  im_args im <> [] ->
  match k_execve k with
  | Some e => INT_MIN < e <= INT_MAX
  | None => True
  end ->
  forall loader,
  my_getenv mem ENVAR (from_index (layout im) (im_argc im + 2))
    = Some loader ->
  is_null loader = false ->
  exists d c execfn st ev tail,
    do_start_context k (layout im) = Some (d, c, execfn, st, ev) /\
    argc d = im_argc im /\
    let v := [loader; resolve_platform a (platform c); execfn]
             ++ map Word (drop 1 (im_args im)) in
    do_start a mem k (layout im)
    = Some (ev ++ EExecve loader (map Some v ++ [Some NULL; None]) (envp d)
                  :: tail) /\
    argv_view (map Some v ++ [Some NULL; None]) = Some v /\
    Z.of_nat (length v) = argc d + 2.
Proof.
  intros Hwf Henv Hsec Hargs Hne Herr loader Hget Hnull.
  pose proof Hwf as [[_ Hnz]%andb_prop _]%andb_prop.
  rewrite layout_envp, (my_getenv_app _ _ _ Hnz Henv) in Hget.
  injection Hget as <-.
  pose proof (do_start_context_image k im Hwf) as Hctx.
  destruct (do_start_execve a mem k im Hwf Henv (secure_clear _ Hsec)
              Hnull Herr) as (tail & Hrun & _).
  assert (im_argv0 im <> 0) as H0.
  { unfold im_argv0. destruct (im_args im) as [|w ws]; [done|].
    cbn [forallb hd] in *. apply andb_prop in Hargs as [Hw _].
    by destruct (Z.eqb_spec w 0). }
  pose proof (im_execfn_not_null k im H0) as Hx.
  destruct (im_execfn k im) as [[e st] ev]. cbn [fst snd] in *.
  exists (im_decoded im), (im_context im), e, st, ev, tail.
  split; [done|]. split; [done|]. cbn zeta.
  split; [|split].
  - by rewrite <- new_argv_of_nonempty.
  - change [Some NULL; None] with (Some NULL :: [@None char_ptr]).
    apply argv_view_app. cbn [app forallb].
    rewrite Hnull, Hx, resolve_platform_not_null. cbn [negb andb].
    clear -Hargs. destruct (im_args im) as [|w ws]; [done|].
    cbn [drop forallb] in *. apply andb_prop in Hargs as [_ Hws].
    rewrite drop_0. induction ws as [|w' ws IH]; [done|].
    cbn [forallb map] in *. apply andb_prop in Hws as [Hw Hws].
    cbn [is_null]. by rewrite Hw, (IH Hws).
  - cbn [app length im_decoded argc]. rewrite length_map, length_drop.
    unfold im_argc. destruct (im_args im); [done|]. cbn [length]. lia.
Qed.

Lemma new_argv_construction_witness :
  wf_image sample_image = true /\
  exists tail,
    do_start x86_64 sample_mem sample_failing_kernel (layout sample_image)
    = Some (EExecve (Word 33)
              [Some (Word 33); Some (Word 45); Some (Word 52);
               Some (Word 10); Some (Word 12); Some NULL; None] 5 :: tail).
Proof.
  split; [reflexivity|].
  destruct (new_argv_construction x86_64 sample_mem sample_failing_kernel
              sample_image eq_refl eq_refl eq_refl eq_refl
              ltac:(discriminate)
              ltac:(vm_compute; split; [reflexivity|discriminate])
              (Word 33) eq_refl eq_refl)
    as (d & c & e & st & ev & tail & Hctx & _ & Hrun & _).
  vm_compute in Hctx. injection Hctx as <- <- <- <- <-.
  exists tail. exact Hrun.
Defined.

(** C2, as stated, fails on the length: for [origProg a b] (argc 3) with
    loader "/bin/loader", platform "x86_64" and file "/path/to/prog" the
    array passed to [execve] holds exactly these three strings, "a" and
    "b" before its terminator: five pointers, not argc + 3. *)
Lemma new_argv_length_counterexample :
  exists arr v,
    do_start x86_64 sample_mem sample_kernel (layout sample_image)
    = Some [EExecve (Word 33) arr 5] /\
    argv_view arr = Some v /\
    map (string_at sample_mem initial_state) v
    = map Some [bytes_of "/bin/loader"; bytes_of "x86_64";
                bytes_of "/path/to/prog"; bytes_of "a"; bytes_of "b"] /\
    im_argc sample_image = 3 /\
    Z.of_nat (length v) <> im_argc sample_image + 3.
Proof.
  exists [Some (Word 33); Some (Word 45); Some (Word 52);
          Some (Word 10); Some (Word 12); Some NULL; None],
         [Word 33; Word 45; Word 52; Word 10; Word 12].
  split; [vm_compute; reflexivity|].
  split; [reflexivity|]. split; [vm_compute; reflexivity|].
  split; [reflexivity|]. vm_compute. discriminate.
Qed.

(** ** The executable name *)

Lemma readlink_buf_string (mem : list Z) (target : list Z) :
  let n := Nat.min (length target) PATH_MAX in
  string_at mem
    {| buf := take n target ++ replicate (PATH_MAX + 1 - n) 0;
       my_errno := 0 |} Buf
  = Some (until_nul (take PATH_MAX target)).
Proof.
  intros n. unfold string_at. cbn [view buf].
  replace (PATH_MAX + 1 - n)%nat with (S (PATH_MAX - n)) by lia.
  cbn [replicate]. rewrite cstring_until_nul. do 2 f_equal.
  subst n. destruct (Nat.min_spec (length target) PATH_MAX) as [[? ->]|[? ->]].
  - by rewrite !take_ge by lia.
  - done.
Qed.

(** C5, as the code has it.  On a well-formed image the executable name
    is the value of the last [AT_EXECFN] entry when there is one and its
    value is not the null pointer, and then no system call is made;
    otherwise (no such entry, or a null value) [readlink] is called on
    /proc/self/exe and the name is [buf] holding the link target when the
    call succeeds, and exactly [argv[0]] when it fails. *)
Theorem execfn_preference (mem : list Z) (k : kernel) (im : image) :
  wf_image im = true ->
  exists d c e st ev,
    do_start_context k (layout im) = Some (d, c, e, st, ev) /\
    (forall v, last_value AT_EXECFN (im_aux im) = Some v -> v <> 0 ->
       e = Word v /\ ev = []) /\
    (last_value AT_EXECFN (im_aux im) = None \/
     last_value AT_EXECFN (im_aux im) = Some 0 ->
       ev = [EReadlink "/proc/self/exe" PATH_MAX] /\
       match k_readlink k with
       | inr target =>
           e = Buf /\
           string_at mem st Buf = Some (until_nul (take PATH_MAX target))
       | inl _ =>
           exists a0, load (layout im) (argv d + 0) = Some a0 /\ e = Word a0
       end).
Proof.
  intros Hwf. pose proof (do_start_context_image k im Hwf) as Hctx.
  unfold im_execfn, im_context in Hctx.
  rewrite context_of_execfn in Hctx. cbn [execfn initial_context] in Hctx.
  destruct (last_value AT_EXECFN (im_aux im)) as [v|].
  - destruct (Z.eqb_spec v 0) as [->|Hv].
    + change (is_null (Word 0)) with true in Hctx. cbn iota in Hctx.
      destruct (k_readlink k) as [err|target];
        do 5 eexists; (split; [exact Hctx|]); (split; [by intros ? [= <-]|]);
        intros _; (split; [done|]).
      * exists (im_argv0 im). split; [|done]. apply layout_argv0.
      * split; [done|]. apply readlink_buf_string.
    + assert (is_null (Word v) = false) as Hn
        by (cbn; by destruct (Z.eqb_spec v 0)).
      rewrite Hn in Hctx. do 5 eexists. split; [exact Hctx|].
      split; [by intros ? [= <-]|]. intros [|[= ?]]; done.
  - change (is_null NULL) with true in Hctx. cbn iota in Hctx.
    destruct (k_readlink k) as [err|target];
      do 5 eexists; (split; [exact Hctx|]); (split; [done|]);
      intros _; (split; [done|]).
    + exists (im_argv0 im). split; [|done]. apply layout_argv0.
    + split; [done|]. apply readlink_buf_string.
Qed.

Lemma execfn_preference_witness :
  wf_image sample_image = true /\
  exists d c st,
    do_start_context sample_kernel (layout sample_image)
    = Some (d, c, Word 52, st, []).
Proof.
  split; [reflexivity|].
  destruct (execfn_preference sample_mem sample_kernel sample_image eq_refl)
    as (d & c & e & st & ev & Hctx & Hgiven & _).
  destruct (Hgiven 52 eq_refl ltac:(discriminate)) as [-> ->].
  by exists d, c, st.
Defined.

(** C5, as stated, fails when the last [AT_EXECFN] entry is there with the
    null pointer as its value: the name passed on is not that value but
    [buf] with the target of /proc/self/exe. *)
Lemma execfn_preference_counterexample :
  last_value AT_EXECFN (im_aux sample_null_execfn_image) = Some 0 /\
  exists d c st,
    do_start_context sample_kernel (layout sample_null_execfn_image)
    = Some (d, c, Buf, st, [EReadlink "/proc/self/exe" PATH_MAX]) /\
    string_at sample_mem st Buf = Some (bytes_of "/usr/bin/prog") /\
    Buf <> Word 0 /\
    do_start x86_64 sample_mem sample_kernel
      (layout sample_null_execfn_image)
    = Some [EReadlink "/proc/self/exe" PATH_MAX;
            EExecve (Word 33)
              [Some (Word 33); Some (Lit "x86_64"); Some Buf; Some NULL;
               None] 3].
Proof.
  split; [reflexivity|].
  do 3 eexists. split; [vm_compute; reflexivity|].
  split; [vm_compute; reflexivity|]. split; [discriminate|].
  vm_compute. reflexivity.
Qed.

(** C10.  On a well-formed image without an [AT_EXECFN] entry, when
    [readlink] succeeds: it was asked for at most [PATH_MAX] bytes, one
    less than [buf] has; [buf] keeps its size; the executable name is
    [buf], which holds a NUL-terminated string of at most [PATH_MAX]
    bytes, the first [PATH_MAX] bytes of the target (up to a NUL, should
    the target have one): a longer target is cut, not written past the
    buffer. *)
Theorem readlink_name_terminated (mem : list Z) (k : kernel) (im : image)
    (target : list Z) :
  wf_image im = true ->
  last_value AT_EXECFN (im_aux im) = None ->
  k_readlink k = inr target ->
  exists d c st s,
    do_start_context k (layout im)
    = Some (d, c, Buf, st, [EReadlink "/proc/self/exe" PATH_MAX]) /\
    length (buf st) = (PATH_MAX + 1)%nat /\
    string_at mem st Buf = Some s /\
    my_strlen (buf st) = Some (length s) /\
    (length s <= PATH_MAX)%nat /\
    s = until_nul (take PATH_MAX target) /\
    (Forall (fun c => c <> 0) target -> s = take PATH_MAX target).
Proof.
  intros Hwf Hnone Hk. pose proof (do_start_context_image k im Hwf) as Hctx.
  unfold im_execfn, im_context in Hctx.
  rewrite context_of_execfn, Hnone, Hk in Hctx.
  cbn [execfn initial_context] in Hctx.
  change (is_null NULL) with true in Hctx. cbn iota in Hctx.
  do 4 eexists. split; [exact Hctx|].
  pose proof (readlink_buf_string mem target) as Hs. cbn zeta in Hs.
  split; [|split; [exact Hs|split; [|split; [|split; [done|]]]]].
  - cbn [buf]. rewrite length_app, length_take, length_replicate. lia.
  - unfold string_at in Hs. cbn [view] in Hs.
    by rewrite my_strlen_cstring, Hs.
  - etrans; [apply until_nul_length|]. rewrite length_take. lia.
  - intros Hnz. apply until_nul_nonzero. by apply Forall_take.
Qed.

Lemma readlink_name_terminated_witness :
  wf_image sample_bare_image = true /\
  exists d c st,
    do_start_context sample_kernel (layout sample_bare_image)
    = Some (d, c, Buf, st, [EReadlink "/proc/self/exe" PATH_MAX]) /\
    string_at sample_mem st Buf = Some (bytes_of "/usr/bin/prog").
Proof.
  split; [reflexivity|].
  destruct (readlink_name_terminated sample_mem sample_kernel
              sample_bare_image (bytes_of "/usr/bin/prog")
              eq_refl eq_refl eq_refl)
    as (d & c & st & s & Hctx & _ & Hs & _ & _ & -> & _).
  exists d, c, st. split; [exact Hctx | exact Hs].
Defined.

(** ** The platform *)

Lemma im_context_platform_absent (im : image) :
  last_value AT_PLATFORM (im_aux im) = None -> platform (im_context im) = NULL.
Proof.
  intros H. unfold im_context. by rewrite context_of_platform, H.
Qed.

(** C6.  On a well-formed image without an [AT_PLATFORM] entry the
    [platform] local is still null after the walk over the auxiliary
    vector, and what replaces it is the string constant picked by the
    [#if] ladder for the target - "x86_64" under [__x86_64__], "i386"
    under [__i386__], "arm" under [__arm__], "mips" under [__mips__] -
    which is not empty and not the null pointer, whatever the memory and
    the kernel hold.  When the run reaches [execve] (with [secure] clear
    and the loader in the environment) that constant is [new_argv[1]],
    and the only system call made before is the [readlink] behind the
    executable name, if any. *)
Theorem default_platform_used (a : arch) (mem : list Z) (k : kernel)
    (im : image) :
  wf_image im = true ->
  last_value AT_PLATFORM (im_aux im) = None ->
  exists d c e st ev,
    do_start_context k (layout im) = Some (d, c, e, st, ev) /\
    platform c = NULL /\
    resolve_platform a (platform c) = Lit (default_platform a) /\
    resolve_platform a (platform c)
    = Lit match a with
          | x86_64 => "x86_64"
          | i386 => "i386"
          | arm => "arm"
          | mips => "mips"
          end /\
    In (default_platform a) ["x86_64"; "i386"; "arm"; "mips"]%string /\
    default_platform a <> ""%string /\
    is_null (Lit (default_platform a)) = false /\
    (ev = [] \/ ev = [EReadlink "/proc/self/exe" PATH_MAX]) /\
    (forallb (readable mem) (im_envs im) = true ->
     secure c = false ->
     is_null (env_value mem ENVAR (im_envs im)) = false ->
     match k_execve k with
     | Some e => INT_MIN < e <= INT_MAX
     | None => True
     end ->
     exists path arr tail,
       do_start a mem k (layout im)
       = Some (ev ++ EExecve path arr (envp d) :: tail) /\
       arr !! 1%nat = Some (Some (Lit (default_platform a))) /\
       arr !! 1%nat
       = Some (Some (Lit match a with
                         | x86_64 => "x86_64"
                         | i386 => "i386"
                         | arm => "arm"
                         | mips => "mips"
                         end))).
Proof.
  intros Hwf Hnone.
  pose proof (do_start_context_image k im Hwf) as Hctx.
  pose proof (im_execfn_events k im) as Hev.
  pose proof (im_context_platform_absent im Hnone) as Hp.
  pose proof (do_start_execve a mem k im Hwf) as Hrun.
  destruct (im_execfn k im) as [[e st] ev]. cbn [fst snd] in *.
  exists (im_decoded im), (im_context im), e, st, ev.
  split; [done|]. split; [done|].
  split; [by rewrite Hp|].
  split; [rewrite Hp; by destruct a|].
  split; [destruct a; cbn; tauto|].
  split; [by destruct a|]. split; [done|]. split; [done|].
  intros Henv Hsec Hnull Herr.
  destruct (Hrun Henv Hsec Hnull Herr) as (tail & -> & _).
  do 3 eexists. split; [done|]. rewrite Hp.
  split; [done | by destruct a].
Qed.

Lemma default_platform_used_witness :
  wf_image sample_null_execfn_image = true /\
  last_value AT_PLATFORM (im_aux sample_null_execfn_image) = None /\
  forall a, exists path arr tail,
    do_start a sample_mem sample_kernel (layout sample_null_execfn_image)
    = Some ([EReadlink "/proc/self/exe" PATH_MAX]
            ++ EExecve path arr 3 :: tail) /\
    arr !! 1%nat
    = Some (Some (Lit match a with
                      | x86_64 => "x86_64"
                      | i386 => "i386"
                      | arm => "arm"
                      | mips => "mips"
                      end)).
Proof.
  split; [reflexivity|]. split; [reflexivity|]. intros a.
  destruct (default_platform_used a sample_mem sample_kernel
              sample_null_execfn_image eq_refl eq_refl)
    as (d & c & e & st & ev & Hctx & _ & _ & _ & _ & _ & _ & _ & Hrun).
  vm_compute in Hctx. injection Hctx as <- <- <- <- <-.
  destruct (Hrun eq_refl eq_refl eq_refl I)
    as (path & arr & tail & Hdo & _ & Harr).
  by exists path, arr, tail.
Defined.

(** ** The fatal paths *)

Lemma diagnostic_line (m f : list Z) (item : option (list Z * list Z)) :
  concat (diagnostic m f item)
  = bytes_of "nacl_interp: " ++ m ++ f
    ++ match item with
       | Some (it, num) => bytes_of ": " ++ it ++ bytes_of "=" ++ num
       | None => []
       end
    ++ bytes_of newline.
Proof.
  unfold diagnostic. destruct item as [[it num]|]; cbn [concat].
  - rewrite app_nil_r. by rewrite <- !app_assoc.
  - by rewrite !app_nil_r.
Qed.

(** C7.  On a well-formed image whose file names and environment strings
    can be read, with any errno an [int] other than the least can hold,
    the run either ends with an [execve] that replaces the process, or is
    a run of [readlink] and [execve] calls followed by exactly one
    [writev] on descriptor 2 and [exit_group(2)].  That holds for each of
    the three fatal paths - [secure] set, the loader variable missing,
    [execve] returning - with the same status 2, and the bytes written
    are the prefix "nacl_interp: ", the message, the file name, then for
    a failed [execve] ": errno=" and the decimal numeral of the errno,
    then a newline. *)
Theorem fatal_paths_report_once (a : arch) (mem : list Z) (k : kernel)
    (im : image) :
  wf_image im = true ->
  names_readable mem im = true ->
  forallb (readable mem) (im_envs im) = true ->
  match k_execve k with
  | Some e => INT_MIN < e <= INT_MAX
  | None => True
  end ->
  exists pre,
    forallb (fun x => negb (is_writev x || is_exit x)) pre = true /\
    ((k_execve k = None /\
      exists pre' path arr envp,
        pre = pre' ++ [EExecve path arr envp] /\
        do_start a mem k (layout im) = Some pre) \/
     (exists m f item,
        do_start a mem k (layout im)
        = Some (pre ++ [EWritev 2 (diagnostic m f item); EExitGroup 2]) /\
        concat (diagnostic m f item)
        = bytes_of "nacl_interp: " ++ m ++ f
          ++ match item with
             | Some (it, num) => bytes_of ": " ++ it ++ bytes_of "=" ++ num
             | None => []
             end
          ++ bytes_of newline /\
        ((secure (im_context im) = true /\ m = refusing /\ item = None) \/
         (secure (im_context im) = false /\
          is_null (env_value mem ENVAR (im_envs im)) = true /\
          m = missing_loader /\ f = [] /\ item = None) \/
         (exists e num,
            secure (im_context im) = false /\ k_execve k = Some e /\
            m = failed_exec /\ item = Some (bytes_of "errno", num) /\
            parse_decimal num = Some e)))).
Proof.
  intros Hwf Hnames Henv Herr.
  pose proof (im_execfn_events k im) as Hev.
  destruct (secure (im_context im)) eqn:Hsec.
  - destruct (im_execfn_readable mem k im Hnames) as [f Hf].
    exists (im_execfn k im).2. split; [by destruct Hev as [-> | ->]|].
    right. exists refusing, f, None.
    split; [by apply do_start_secure|].
    split; [apply diagnostic_line|]. by left.
  - destruct (is_null (env_value mem ENVAR (im_envs im))) eqn:Hnull.
    + exists (im_execfn k im).2. split; [by destruct Hev as [-> | ->]|].
      right. exists missing_loader, [], None.
      split; [by apply do_start_missing_loader|].
      split; [apply diagnostic_line|]. right. by left.
    + destruct (do_start_execve a mem k im Hwf Henv Hsec Hnull Herr)
        as (tail & Hrun & Htail).
      cbn zeta in Hrun.
      set (call := EExecve _ _ _) in Hrun.
      exists ((im_execfn k im).2 ++ [call]).
      split; [by destruct Hev as [-> | ->]|].
      destruct (k_execve k) as [e|].
      * right. destruct Htail as (v & num & Hv & Hnum & ->).
        exists failed_exec, v, (Some (bytes_of "errno", num)).
        split; [by rewrite Hrun, <- app_assoc|].
        split; [apply diagnostic_line|]. right. right. by exists e, num.
      * left. subst tail. split; [done|].
        by exists (im_execfn k im).2, (env_value mem ENVAR (im_envs im)),
          (new_argv_of im (env_value mem ENVAR (im_envs im))
             (resolve_platform a (platform (im_context im)))
             (im_execfn k im).1.1), (im_argc im + 2).
Qed.

Lemma fatal_paths_report_once_witness :
  wf_image sample_image = true /\
  names_readable sample_mem sample_image = true /\
  forallb (readable sample_mem) (im_envs sample_image) = true /\
  exists call,
    do_start x86_64 sample_mem sample_failing_kernel (layout sample_image)
    = Some [call;
            EWritev 2 (diagnostic failed_exec (bytes_of "/bin/loader")
                         (Some (bytes_of "errno", bytes_of "13")));
            EExitGroup 2].
Proof.
  split; [reflexivity|]. split; [reflexivity|]. split; [reflexivity|].
  destruct (fatal_paths_report_once x86_64 sample_mem sample_failing_kernel
              sample_image eq_refl eq_refl eq_refl
              ltac:(vm_compute; split; [reflexivity | discriminate]))
    as (pre & _ & [[Hnone _] | (m & f & item & Hrun & _)]).
  - discriminate Hnone.
  - eexists. vm_compute. reflexivity.
Defined.

(** ** Rendering integers *)

Example iov_int_string_zero :
  iov_int_string 0 (replicate 32 0) 32
  = Some ({| iov_base := ValBuf 31; iov_len := 1 |},
          replicate 31 0 ++ bytes_of "0").
Proof. reflexivity. Qed.

Example iov_int_string_42 :
  iov_int_string 42 (replicate 32 0) 32
  = Some ({| iov_base := ValBuf 30; iov_len := 2 |},
          replicate 30 0 ++ bytes_of "42").
Proof. reflexivity. Qed.

Example iov_int_string_int_max :
  iov_int_string INT_MAX (replicate 32 0) 32
  = Some ({| iov_base := ValBuf 22; iov_len := 10 |},
          replicate 22 0 ++ bytes_of "2147483647").
Proof. reflexivity. Qed.

Example iov_int_string_above_int_min :
  iov_int_string (INT_MIN + 1) (replicate 32 0) 32
  = Some ({| iov_base := ValBuf 21; iov_len := 11 |},
          replicate 21 0 ++ bytes_of "-2147483647").
Proof. reflexivity. Qed.

(** C3.  The claim fails on the least [int]: [value = -value] wraps back
    to -2147483648, [value % 10] is -8, and the digit is read from before
    the constant "0123456789"; no numeral is written, whatever the buffer.
    (Every other [int] is rendered exactly: [iov_int_string_spec].) *)
Theorem iov_int_string_int_min (b : list Z) (bufsz : nat) :
  wrap32 (- (-2147483648)) = -2147483648 /\
  Z.rem (-2147483648) 10 = -8 /\
  digit_char (-8) = None /\
  iov_int_string (-2147483648) b bufsz = None.
Proof.
  split; [reflexivity|]. split; [reflexivity|]. split; [reflexivity|].
  unfold iov_int_string.
  change (-2147483648 <? 0) with true. cbn iota.
  change (wrap32 (- (-2147483648))) with (-2147483648).
  by rewrite iov_int_string_loop_negative.
Qed.

(** A link target longer than the buffer is cut at [PATH_MAX] bytes. *)
Example readlink_long_target :
  match do_start_context
          {| k_readlink := inr (replicate 5000 65); k_execve := None |}
          (layout sample_bare_image) with
  | Some (_, _, e, st, _) =>
      e = Buf /\ my_strlen (buf st) = Some PATH_MAX /\
      length (buf st) = (PATH_MAX + 1)%nat
  | None => False
  end.
Proof. vm_compute. repeat split. Qed.

(** With no argument at all, slot 3 of the new array is never assigned:
    the array has no terminator unless [argv[0]], the null word, became
    the executable name. *)
Example new_argv_without_arguments :
  do_start x86_64 sample_mem sample_kernel
    (layout {| im_args := []; im_envs := [14];
               im_aux := [(AT_EXECFN, 52); (AT_SECURE, 0)];
               im_end_val := 0; im_above := [] |})
  = Some [EExecve (Word 33)
            [Some (Word 33); Some (Lit "x86_64"); Some (Word 52); None] 2].
Proof. vm_compute. reflexivity. Qed.

(** * Further properties of the code *)

(** ** environ_match and my_getenv on their own *)

Lemma starts_with_app (p s : list Z) :
  starts_with p s = true -> s = p ++ drop (length p) s.
Proof.
  revert s. induction p as [|c p IH]; intros [|d s]; simpl; try done.
  intros [Hc Hp]%andb_prop. apply Z.eqb_eq in Hc as ->.
  f_equal. by apply IH.
Qed.

Lemma starts_with_prefix (p t : list Z) : starts_with p (p ++ t) = true.
Proof.
  induction p as [|c p IH]; [done|]. simpl. by rewrite Z.eqb_refl, IH.
Qed.

(** X1.  Against a NUL-terminated string [s] at address [w],
    [environ_match] with a name free of NUL bytes returns the address
    just after the equals sign when [s] is the name, an equals sign and
    a value, and the null pointer in every other case (a different name,
    the bare name, a longer name with the same start); the address it
    returns holds the value, which may be empty. *)
Theorem environ_match_value (name : string) (mem : list Z) (w : Z)
    (s : list Z) :
  Forall (fun c => c <> 0) (bytes_of name) ->
  cstring (from_index mem w) = Some s ->
  let value := drop (String.length name + 1) s in
  environ_match (literal name) (from_index mem w) w
  = Some (if defines name s
          then Word (w + Z.of_nat (String.length name) + 1) else NULL) /\
  (defines name s = true <-> s = bytes_of name ++ 61 :: value) /\
  (defines name s = true ->
   cstring (from_index mem (w + Z.of_nat (String.length name) + 1))
   = Some value).
Proof.
  intros Hname Hs value. split; [|split].
  - unfold literal. rewrite (environ_match_spec _ _ _ _ Hname Hs).
    by rewrite bytes_of_length.
  - unfold defines. split.
    + intros Hd. apply starts_with_app in Hd.
      rewrite length_app, bytes_of_length in Hd. cbn [length] in Hd.
      by rewrite <- app_assoc in Hd.
    + intros Heq.
      rewrite Heq, (cons_middle 61 (bytes_of name) value), app_assoc.
      apply starts_with_prefix.
  - intros Hd. apply starts_with_length in Hd.
    rewrite length_app, bytes_of_length in Hd. cbn [length] in Hd.
    replace (w + Z.of_nat (String.length name) + 1)
      with (w + Z.of_nat (String.length name + 1)) by lia.
    by apply cstring_from_index_add.
Qed.

Lemma environ_match_value_witness :
  environ_match (literal ENVAR) (from_index sample_mem 14) 14
  = Some (Word 33) /\
  cstring (from_index sample_mem 33) = Some (bytes_of "/bin/loader").
Proof.
  destruct (environ_match_value ENVAR sample_mem 14
              (bytes_of "NACL_INTERP_LOADER=/bin/loader")
              bytes_of_ENVAR_nonzero eq_refl) as (Hm & _ & Hv).
  split; [exact Hm | exact (Hv eq_refl)].
Defined.

(** X2.  [my_getenv] returns the value of the first environment string
    that defines the name: when the strings before it are readable and
    do not define it, the result is the address after its equals sign,
    whatever follows in the array - later definitions, unreadable
    strings, or no terminator at all. *)
Theorem my_getenv_first_definition (name : string) (mem : list Z)
    (pre : list Z) (w : Z) (rest : list Z) (s : list Z) :
  Forall (fun c => c <> 0) (bytes_of name) ->
  forallb (fun w => negb (w =? 0)) pre = true ->
  undefined_in mem name pre = true ->
  w <> 0 -> cstring (from_index mem w) = Some s -> defines name s = true ->
  my_getenv mem name (pre ++ w :: rest)
  = Some (Word (w + Z.of_nat (String.length name) + 1)).
Proof.
  intros Hname Hnz Hpre Hw Hs Hd.
  assert (0 <= w) as Hw0.
  { apply (readable_nonneg mem). unfold readable. by rewrite Hs. }
  induction pre as [|x pre IH]; cbn [app my_getenv].
  - destruct (Z.eqb_spec w 0); [done|]. unfold literal.
    rewrite (environ_match_spec _ _ _ _ Hname Hs). bind_step.
    unfold defines in Hd. rewrite Hd, bytes_of_length. cbn [is_null].
    by destruct (Z.eqb_spec (w + Z.of_nat (String.length name) + 1) 0);
      [lia|].
  - cbn [forallb undefined_in] in Hnz, Hpre.
    apply andb_prop in Hnz as [Hx Hnz]. apply andb_prop in Hpre as [Hxs Hpre].
    destruct (Z.eqb_spec x 0); [done|].
    destruct (cstring (from_index mem x)) as [sx|] eqn:Hsx; [|done].
    unfold literal. rewrite (environ_match_spec _ _ _ _ Hname Hsx). bind_step.
    unfold defines in Hxs.
    destruct (starts_with (bytes_of name ++ [61]) sx); [done|].
    change (is_null NULL) with true. cbn iota. by apply IH.
Qed.

Lemma my_getenv_first_definition_witness :
  my_getenv sample_mem ENVAR [66; 14; 14; 999]
  = Some (Word 33).
Proof.
  apply (my_getenv_first_definition ENVAR sample_mem [66] 14 [14; 999]
           (bytes_of "NACL_INTERP_LOADER=/bin/loader"));
    [apply bytes_of_ENVAR_nonzero | reflexivity | reflexivity
    | discriminate | reflexivity | reflexivity].
Defined.

(** X3.  On an array of readable environment strings closed by a null
    word, [my_getenv] returns the null pointer exactly when no string
    defines the name - in particular on the empty environment - and never
    looks past the null word. *)
Theorem my_getenv_null_iff_undefined (name : string) (mem : list Z)
    (envs rest : list Z) :
  Forall (fun c => c <> 0) (bytes_of name) ->
  forallb (fun w => negb (w =? 0)) envs = true ->
  forallb (readable mem) envs = true ->
  (my_getenv mem name (envs ++ 0 :: rest) = Some NULL
   <-> undefined_in mem name envs = true) /\
  my_getenv mem name (0 :: rest) = Some NULL /\
  exists p, my_getenv mem name (envs ++ 0 :: rest) = Some p.
Proof.
  intros Hname Hnz Hrd. split; [|split; [done|]].
  - induction envs as [|x envs IH]; [done|].
    cbn [forallb] in Hnz, Hrd.
    apply andb_prop in Hnz as [Hx Hnz]. apply andb_prop in Hrd as [Hr Hrd].
    cbn [app my_getenv undefined_in forallb].
    destruct (Z.eqb_spec x 0); [done|].
    pose proof (readable_nonneg _ _ Hr) as Hx0. unfold readable in Hr.
    destruct (cstring (from_index mem x)) as [sx|] eqn:Hsx; [|done].
    unfold literal. rewrite (environ_match_spec _ _ _ _ Hname Hsx). bind_step.
    unfold defines. destruct (starts_with (bytes_of name ++ [61]) sx).
    + rewrite bytes_of_length. cbn [is_null negb andb].
      destruct (Z.eqb_spec (x + Z.of_nat (String.length name) + 1) 0)
        as [|Hne]; [lia|].
      split; [|done]. intros [= Heq]. lia.
    + change (is_null NULL) with true. cbn iota. cbn [negb andb].
      by apply IH.
  - induction envs as [|x envs IH]; [by exists NULL|].
    cbn [forallb] in Hnz, Hrd.
    apply andb_prop in Hnz as [Hx Hnz]. apply andb_prop in Hrd as [Hr Hrd].
    cbn [app my_getenv].
    destruct (Z.eqb_spec x 0); [done|]. unfold readable in Hr.
    destruct (cstring (from_index mem x)) as [sx|] eqn:Hsx; [|done].
    unfold literal. rewrite (environ_match_spec _ _ _ _ Hname Hsx). bind_step.
    destruct (is_null _); [by apply IH | by eexists].
Qed.

Lemma my_getenv_null_iff_undefined_witness :
  my_getenv sample_mem ENVAR ([66] ++ 0 :: [14]) = Some NULL.
Proof.
  destruct (my_getenv_null_iff_undefined ENVAR sample_mem [66] [14]
              bytes_of_ENVAR_nonzero eq_refl eq_refl) as ([_ H] & _).
  exact (H eq_refl).
Defined.

(** ** my_strlen *)

(** X4.  [my_strlen] returns the index of the first NUL byte of the
    object it is given, and has no result exactly when the object holds
    no NUL byte (the walk leaves it). *)
Theorem my_strlen_first_nul (s : list Z) :
  (forall n, my_strlen s = Some n <->
     s !! n = Some 0 /\
     forall i c, (i < n)%nat -> s !! i = Some c -> c <> 0) /\
  (my_strlen s = None <-> Forall (fun c => c <> 0) s).
Proof.
  induction s as [|c s [IHn IHz]].
  - split; [|by split]. intros n. split; [done|]. by intros [? _].
  - cbn [my_strlen]. destruct (Z.eqb_spec c 0) as [->|Hc].
    + split.
      * intros n. split.
        -- intros [= <-]. split; [done|]. intros i x Hi. lia.
        -- intros [H0 Hall]. destruct n as [|n]; [done|].
           by destruct (Hall 0%nat 0 ltac:(lia) eq_refl).
      * split; [done|]. intros H. by inversion H.
    + split.
      * intros [|n].
        -- split.
           ++ destruct (my_strlen s); simpl; done.
           ++ intros [[= ->] _]. done.
        -- specialize (IHn n). split.
           ++ destruct (my_strlen s) as [m|] eqn:Hm; simpl; [|done].
              intros [= <-]. destruct IHn as [[H0 Hall] _]; [done|].
              split; [done|]. intros [|i] x Hi; [by intros [= <-]|].
              apply Hall. lia.
           ++ intros [H0 Hall]. destruct IHn as [_ ->]; [done|].
              split; [done|]. intros i x Hi. apply (Hall (S i)). lia.
      * destruct (my_strlen s); simpl.
        -- split; [done|]. intros H. inversion H as [|? ? _ Hs]. subst.
           by apply IHz in Hs.
        -- split; [|done]. intros _. constructor; [done|]. by apply IHz.
Qed.

(** ** iov_int_string on its own *)

(** X5.  For every [int] except the least and every buffer of [bufsz]
    bytes, [bufsz] at least 11, [iov_int_string] succeeds: it writes a
    numeral of 1 to 11 bytes at the end of the buffer and leaves the
    bytes before it alone; [*iov] describes exactly the numeral; the
    numeral starts with a minus sign exactly for a negative value and
    reads back, under a strict decimal reader, as the value. *)
Theorem iov_int_string_renders (v : Z) (b : list Z) (bufsz : nat) :
  INT_MIN < v <= INT_MAX -> length b = bufsz -> (11 <= bufsz)%nat ->
  exists (p : nat) (r : list Z),
    iov_int_string v b bufsz
    = Some ({| iov_base := ValBuf p; iov_len := length r |}, take p b ++ r)
    /\ (p + length r = bufsz)%nat /\ (1 <= length r <= 11)%nat
    /\ parse_decimal r = Some v
    /\ (head r = Some 45 <-> v < 0).
Proof.
  unfold INT_MIN, INT_MAX. intros Hv Hb Hsz. unfold iov_int_string.
  assert (drop bufsz b = []) as Hdrop by (apply drop_ge; lia).
  destruct (Z.ltb_spec v 0) as [Hneg|Hpos].
  - rewrite wrap32_id by lia.
    destruct (iov_int_string_loop_spec 10 bufsz (- v) b)
      as (p & ds & -> & Hlen & Hds & Hnum); [lia..|].
    bind_step. rewrite Hdrop, app_nil_r.
    destruct p as [|p]; [lia|].
    rewrite store_nat by (rewrite length_app, length_take; lia).
    bind_step.
    exists p, (45 :: ds). split; [|split; [|split; [|split]]].
    + do 2 f_equal.
      * f_equal. cbn [length]. lia.
      * rewrite insert_app_l by (rewrite length_take; lia).
        rewrite insert_take_drop by (rewrite length_take; lia).
        rewrite take_take, Nat.min_l by lia.
        rewrite drop_ge by (rewrite length_take; lia).
        by rewrite <- app_assoc.
    + simpl. lia.
    + simpl. lia.
    + simpl. rewrite (numeral_parse_unsigned _ _ Hnum). bind_step.
      destruct (Z.eqb_spec (- v) 0); [lia|]. f_equal. lia.
    + done.
  - destruct (iov_int_string_loop_spec 10 bufsz v b)
      as (p & ds & -> & Hlen & Hds & Hnum); [lia..|].
    bind_step. rewrite Hdrop, app_nil_r.
    exists p, ds. split; [|split; [done|split; [lia|]]].
    { do 3 f_equal. lia. }
    destruct ds as [|d ds']; [simpl in Hds; lia|].
    pose proof (numeral_first_digit _ _ _ Hnum) as Hd.
    split.
    + unfold parse_decimal. destruct (Z.eqb_spec d 45); [lia|].
      by apply numeral_parse_unsigned.
    + cbn [head]. split; [|lia]. intros [= ->]. lia.
Qed.

Lemma iov_int_string_renders_witness :
  exists p r,
    iov_int_string (-4095) (replicate 32 0) 32
    = Some ({| iov_base := ValBuf p; iov_len := length r |},
            take p (replicate 32 0) ++ r) /\
    parse_decimal r = Some (-4095).
Proof.
  destruct (iov_int_string_renders (-4095) (replicate 32 0) 32)
    as (p & r & Hrun & _ & _ & Hparse & _).
  - vm_compute. split; [reflexivity | discriminate].
  - reflexivity.
  - lia.
  - by exists p, r.
Defined.

Lemma iov_int_string_loop_no_room (p : nat) (v : Z) (b : list Z) :
  10 ^ Z.of_nat p <= v -> iov_int_string_loop p v b = None.
Proof.
  revert v b. induction p as [|p IH]; intros v b Hv; [done|].
  cbn [iov_int_string_loop].
  destruct (digit_char (Z.rem v 10)); [|done]. bind_step.
  destruct (store b (Z.of_nat p) z) as [b'|]; [|done]. bind_step.
  rewrite Nat2Z.inj_succ, Z.pow_succ_r in Hv by lia.
  assert (0 < 10 ^ Z.of_nat p) as Hpow by (apply Z.pow_pos_nonneg; lia).
  rewrite Z.quot_div_nonneg by lia.
  assert (10 ^ Z.of_nat p <= v / 10) as Hq
    by (apply Z.div_le_lower_bound; lia).
  destruct (Z.eqb_spec (v / 10) 0); [lia|]. by apply IH.
Qed.

Lemma iov_int_string_loop_past_end (p : nat) (v : Z) (b : list Z) :
  (length b < p)%nat -> iov_int_string_loop p v b = None.
Proof.
  intros Hp. destruct p as [|p]; [done|]. cbn [iov_int_string_loop].
  destruct (digit_char (Z.rem v 10)); [|done]. bind_step.
  unfold store.
  destruct (Z.ltb_spec (Z.of_nat p) (Z.of_nat (length b))); [lia|].
  by rewrite andb_false_r.
Qed.

(** X6.  [iov_int_string] does not check the room it is given: it has no
    result - the write position leaves the buffer - when the value has
    more decimal digits than [bufsz], and when [bufsz] is larger than the
    buffer. *)
Theorem iov_int_string_no_room (v : Z) (b : list Z) (bufsz : nat) :
  10 ^ Z.of_nat bufsz <= v \/ (length b < bufsz)%nat ->
  iov_int_string v b bufsz = None.
Proof.
  intros [Hv|Hb]; unfold iov_int_string.
  - assert (0 < 10 ^ Z.of_nat bufsz) as Hpow
      by (apply Z.pow_pos_nonneg; lia).
    destruct (Z.ltb_spec v 0); [lia|].
    by rewrite iov_int_string_loop_no_room.
  - by rewrite iov_int_string_loop_past_end.
Qed.

Lemma iov_int_string_no_room_witness :
  iov_int_string 100 [0; 0] 2 = None /\ iov_int_string 7 [] 1 = None.
Proof.
  split.
  - apply iov_int_string_no_room. left. vm_compute. discriminate.
  - apply iov_int_string_no_room. right. simpl. lia.
Defined.

(** ** fail on its own *)

Lemma fail_null_item (mem : list Z) (st : state)
    (message filename item1 : char_ptr) (value1 : Z) :
  is_null item1 = true ->
  fail mem st message filename item1 value1
  = fail mem st message filename NULL 0.
Proof.
  destruct item1 as [w| | |]; try done. cbn [is_null].
  intros ->%Z.eqb_eq. reflexivity.
Qed.

(** X7.  For any message, any file name that is null or a string, and
    any item, [fail] makes exactly two system calls: one [writev] on
    descriptor 2 of eight entries and [exit_group(2)].  With a null item
    the entries are the prefix, the message, the file name (nothing for
    a null one) and a newline, and the value is not looked at; with an
    item and a value that is not the least [int] they also hold ": ",
    the item, "=" and the decimal numeral of the value. *)
Theorem fail_writes_one_line (mem : list Z) (st : state)
    (message filename item1 : char_ptr) (value1 : Z) (m f : list Z) :
  string_at mem st message = Some m ->
  filename_string mem st filename = Some f ->
  (is_null item1 = true ->
   fail mem st message filename item1 value1
   = Some [EWritev 2 (diagnostic m f None); EExitGroup 2]) /\
  (forall it,
     is_null item1 = false -> string_at mem st item1 = Some it ->
     INT_MIN < value1 <= INT_MAX ->
     exists num,
       parse_decimal num = Some value1 /\
       fail mem st message filename item1 value1
       = Some [EWritev 2 (diagnostic m f (Some (it, num))); EExitGroup 2]) /\
  (forall item, length (diagnostic m f item) = 8%nat).
Proof.
  intros Hm Hf. split; [|split; [|done]].
  - intros Hnull. rewrite (fail_null_item _ _ _ _ _ _ Hnull).
    by apply fail_plain.
  - intros it Hnull Hit Hv. by apply fail_item.
Qed.

Lemma fail_writes_one_line_witness :
  fail sample_mem initial_state (Lit "cannot open ") (Word 52) NULL INT_MIN
  = Some [EWritev 2 (diagnostic (bytes_of "cannot open ")
                       (bytes_of "/path/to/prog") None);
          EExitGroup 2].
Proof.
  apply (fail_writes_one_line sample_mem initial_state (Lit "cannot open ")
           (Word 52) NULL INT_MIN); reflexivity.
Defined.

(** ** More on do_start *)

(** X8.  When the run reaches [execve], [new_argv[1]] is the value of the
    last [AT_PLATFORM] entry of the auxiliary vector, unless there is no
    such entry or its value is the null pointer: then it is the string
    constant of the target. *)
Theorem platform_passed_on (a : arch) (mem : list Z) (k : kernel)
    (im : image) :
  wf_image im = true ->
  forallb (readable mem) (im_envs im) = true ->
  last_value AT_SECURE (im_aux im) = Some 0 ->
  is_null (env_value mem ENVAR (im_envs im)) = false ->
  match k_execve k with
  | Some e => INT_MIN < e <= INT_MAX
  | None => True
  end ->
  exists ev path arr tail,
    do_start a mem k (layout im)
    = Some (ev ++ EExecve path arr (im_argc im + 2) :: tail) /\
    arr !! 1%nat
    = Some (Some match last_value AT_PLATFORM (im_aux im) with
                 | Some v => if v =? 0 then Lit (default_platform a)
                             else Word v
                 | None => Lit (default_platform a)
                 end).
Proof.
  intros Hwf Henv Hsec Hnull Herr.
  destruct (do_start_execve a mem k im Hwf Henv (secure_clear _ Hsec)
              Hnull Herr) as (tail & Hrun & _).
  do 4 eexists. split; [exact Hrun|].
  cbn [new_argv_of lookup list_lookup]. do 2 f_equal.
  unfold im_context. rewrite context_of_platform.
  cbn [platform initial_context].
  by destruct (last_value AT_PLATFORM (im_aux im)).
Qed.

Lemma platform_passed_on_witness :
  exists ev path arr tail,
    do_start arm sample_mem sample_kernel (layout sample_image)
    = Some (ev ++ EExecve path arr 5 :: tail) /\
    arr !! 1%nat = Some (Some (Word 45)).
Proof.
  apply (platform_passed_on arm sample_mem sample_kernel sample_image);
    [reflexivity | reflexivity | reflexivity | reflexivity | exact I].
Defined.

Lemma layout_argv_lookup (im : image) (i : nat) :
  (i <= length (im_args im))%nat ->
  load (layout im) (1 + Z.of_nat i) = (im_args im ++ [0]) !! i.
Proof.
  intros Hi. rewrite <- from_index_lookup, layout_argv by lia.
  rewrite (cons_middle 0 (im_args im)), app_assoc.
  apply lookup_app_l. rewrite length_app. simpl. lia.
Qed.

(** X9.  The array handed to [execve] has argc + 4 slots.  Slot 0 is the
    loader, slot 2 + i is [argv[i]] for every i from 1 to argc - the last
    of these, [argv[argc]], is the null word that ends [argv] and so ends
    the new vector - and the last slot is never assigned.  With argc = 0
    nothing is copied: no terminator is stored after slot 2. *)
Theorem new_argv_slots (a : arch) (mem : list Z) (k : kernel) (im : image) :
  wf_image im = true ->
  forallb (readable mem) (im_envs im) = true ->
  last_value AT_SECURE (im_aux im) = Some 0 ->
  match k_execve k with
  | Some e => INT_MIN < e <= INT_MAX
  | None => True
  end ->
  forall loader,
  my_getenv mem ENVAR (from_index (layout im) (im_argc im + 2))
    = Some loader ->
  is_null loader = false ->
  exists ev arr tail,
    do_start a mem k (layout im)
    = Some (ev ++ EExecve loader arr (im_argc im + 2) :: tail) /\
    length arr = (length (im_args im) + 4)%nat /\
    arr !! 0%nat = Some (Some loader) /\
    (forall (i : nat) w, (1 <= i <= length (im_args im))%nat ->
       load (layout im) (1 + Z.of_nat i) = Some w ->
       arr !! (2 + i)%nat = Some (Some (Word w))) /\
    (im_args im <> [] ->
     arr !! (length (im_args im) + 2)%nat = Some (Some NULL)) /\
    arr !! (length (im_args im) + 3)%nat = Some None.
Proof.
  intros Hwf Henv Hsec Herr loader Hget Hnull.
  pose proof Hwf as [[_ Hnz]%andb_prop _]%andb_prop.
  rewrite layout_envp, (my_getenv_app _ _ _ Hnz Henv) in Hget.
  injection Hget as <-.
  destruct (do_start_execve a mem k im Hwf Henv (secure_clear _ Hsec)
              Hnull Herr) as (tail & Hrun & _).
  do 3 eexists. split; [exact Hrun|].
  set (l := env_value mem ENVAR (im_envs im)).
  set (p := resolve_platform a _). set (e := (im_execfn k im).1.1).
  assert (length (drop 1 (im_args im ++ [0])) = length (im_args im)) as Hlen.
  { rewrite length_drop, length_app. simpl. lia. }
  assert (forall i : nat, (1 <= i <= length (im_args im))%nat ->
            new_argv_of im l p e !! (2 + i)%nat
            = (fun w => Some (Word w)) <$> (im_args im ++ [0]) !! i)
    as Hslot.
  { intros i Hi.
    change (new_argv_of im l p e)
      with ([Some l; Some p; Some e]
            ++ (map (fun w => Some (Word w)) (drop 1 (im_args im ++ [0]))
                ++ [None])).
    rewrite lookup_app_r by (simpl; lia).
    rewrite lookup_app_l by (rewrite length_map; simpl; lia).
    replace (2 + i - length [Some l; Some p; Some e])%nat
      with (i - 1)%nat by (simpl; lia).
    change (map ?f ?x) with (f <$> x).
    rewrite list_lookup_fmap, lookup_drop. do 2 f_equal. lia. }
  split; [|split; [done|split; [|split]]].
  - unfold new_argv_of. cbn [length].
    rewrite length_app, length_map, Hlen. simpl. lia.
  - intros i w Hi Hw. rewrite layout_argv_lookup in Hw by lia.
    by rewrite (Hslot i Hi), Hw.
  - intros Hne.
    replace (length (im_args im) + 2)%nat
      with (2 + length (im_args im))%nat by lia.
    rewrite Hslot by (destruct (im_args im); [done | simpl; lia]).
    by rewrite list_lookup_middle.
  - change (new_argv_of im l p e)
      with ([Some l; Some p; Some e]
            ++ (map (fun w => Some (Word w)) (drop 1 (im_args im ++ [0]))
                ++ [None])).
    rewrite lookup_app_r by (simpl; lia).
    rewrite lookup_app_r by (rewrite length_map; simpl; lia).
    rewrite length_map, Hlen.
    replace (length (im_args im) + 3 - length [Some l; Some p; Some e]
             - length (im_args im))%nat with 0%nat by (simpl; lia).
    done.
Qed.

Lemma new_argv_slots_witness :
  exists ev arr tail,
    do_start x86_64 sample_mem sample_kernel (layout sample_image)
    = Some (ev ++ EExecve (Word 33) arr 5 :: tail) /\
    length arr = 7%nat /\
    arr !! 4%nat = Some (Some (Word 12)) /\
    arr !! 5%nat = Some (Some NULL) /\
    arr !! 6%nat = Some None.
Proof.
  destruct (new_argv_slots x86_64 sample_mem sample_kernel sample_image
              eq_refl eq_refl eq_refl I (Word 33) eq_refl eq_refl)
    as (ev & arr & tail & Hrun & Hlen & _ & Hslot & Hterm & Hlast).
  exists ev, arr, tail. split; [exact Hrun|]. split; [exact Hlen|].
  split; [exact (Hslot 2%nat 12 ltac:(simpl; lia) eq_refl)|].
  split; [exact (Hterm ltac:(discriminate)) | exact Hlast].
Defined.

Lemma wrap32_range (z : Z) : - 2 ^ 31 <= wrap32 z < 2 ^ 31.
Proof.
  unfold wrap32.
  pose proof (Z.mod_pos_bound (z + 2 ^ 31) (2 ^ 32) ltac:(lia)). lia.
Qed.

Lemma wrap32_succ (c : Z) :
  0 <= c < 2 ^ 31 -> 0 <= 1 + wrap32 (c + 1) -> wrap32 (c + 1) = c + 1.
Proof.
  intros Hc He. destruct (Z.eq_dec c (2 ^ 31 - 1)) as [->|Hne].
  - exfalso. revert He. vm_compute. by intros [].
  - apply wrap32_id. lia.
Qed.

(** X10.  On any block whatever, well formed or not, when the first
    lines of [do_start] find their pointers then [argc] is the first word
    cut to an [int], [argv] is the second word's address, [envp] lies
    [argc + 1] words after it, [ep] is the first null word at or after
    [envp], [auxv] the word after it, and [av] the first entry at or
    after [auxv] whose type is [AT_NULL].  The word at [argv[argc]],
    where the kernel puts the null that ends [argv], is not looked at:
    any other word there gives the same pointers. *)
Theorem decode_stops_at_first_sentinels (stack : list Z) (d : decoded) :
  decode stack = Some d ->
  (exists w0, load stack 0 = Some w0 /\ argc d = wrap32 w0) /\
  argv d = 1 /\
  envp d = argv d + wrap32 (argc d + 1) /\
  (envp d <= ep d /\ load stack (ep d) = Some 0 /\
   forall j, envp d <= j < ep d ->
     exists w, load stack j = Some w /\ w <> 0) /\
  auxv d = ep d + 1 /\
  (exists n : nat, av d = auxv d + 2 * Z.of_nat n /\
     load stack (av d) = Some AT_NULL /\
     forall j : nat, (j < n)%nat ->
       exists t, load stack (auxv d + 2 * Z.of_nat j) = Some t /\
                 t <> AT_NULL) /\
  (forall x, 0 <= argc d ->
     decode (<[Z.to_nat (argv d + argc d) := x]> stack) = Some d).
Proof.
  intros Hd. pose proof (decode_sound _ _ Hd) as Hs.
  destruct Hs as (H0 & Hargv & Henvp & Henv & Hauxv & Haux).
  do 6 (split; [done|]).
  intros x Hc. revert Hd Hc. unfold decode.
  destruct (load stack 0) as [w0|] eqn:Hw0; [|done]. bind_step.
  set (c := wrap32 w0). set (e := 1 + wrap32 (c + 1)).
  destruct (scan_envp (from_index stack e) e) as [p|] eqn:Hp; [|done].
  bind_step.
  destruct (scan_auxv (from_index stack (p + 1)) (p + 1)) as [q|] eqn:Hq;
    [|done].
  intros [= <-]. cbn [argc argv]. intros Hc.
  pose proof (from_index_nonempty _ _ (scan_envp_nonempty _ _ _ Hp)) as He.
  pose proof (wrap32_range w0) as Hr. fold c in Hr.
  assert (e = c + 2) as Hec.
  { subst e. rewrite wrap32_succ; [lia | lia | done]. }
  assert (e <= p) as Hle by by apply scan_envp_first in Hp as (? & _).
  set (n := Z.to_nat (1 + c)).
  assert (load (<[n := x]> stack) 0 = Some w0) as ->.
  { revert Hw0. unfold load. cbn [Z.ltb Z.compare].
    change (Z.to_nat 0) with 0%nat.
    rewrite list_lookup_insert_ne by (subst n; lia). done. }
  bind_step. fold c. fold e.
  assert (forall i, e <= i ->
            from_index (<[n := x]> stack) i = from_index stack i) as Hsame.
  { intros i Hi. unfold from_index. destruct (Z.ltb_spec i 0); [done|].
    apply drop_insert_lt. subst n. lia. }
  rewrite (Hsame e) by lia. rewrite Hp. bind_step.
  rewrite (Hsame (p + 1)) by lia. by rewrite Hq.
Qed.

Lemma decode_stops_at_first_sentinels_witness :
  exists d,
    decode (layout sample_image) = Some d /\
    load (layout sample_image) (ep d) = Some 0 /\
    decode (<[4%nat := 77]> (layout sample_image)) = Some d.
Proof.
  destruct (decode (layout sample_image)) as [d|] eqn:Hd;
    [|vm_compute in Hd; discriminate].
  destruct (decode_stops_at_first_sentinels _ d Hd)
    as (_ & _ & _ & (_ & Hep & _) & _ & _ & Hterm).
  exists d. split; [reflexivity|]. split; [exact Hep|].
  assert (Z.to_nat (argv d + argc d) = 4%nat /\ 0 <= argc d) as [Hi Hc].
  { vm_compute in Hd. injection Hd as <-. vm_compute. split; [done|].
    discriminate. }
  rewrite <- Hi. apply Hterm. exact Hc.
Defined.

Lemma env_value_first (mem : list Z) (name : string) (pre : list Z) (w : Z)
    (post : list Z) (s : list Z) :
  undefined_in mem name pre = true ->
  cstring (from_index mem w) = Some s -> defines name s = true ->
  env_value mem name (pre ++ w :: post)
  = Word (w + Z.of_nat (String.length name) + 1).
Proof.
  intros Hpre Hs Hd. induction pre as [|x pre IH]; cbn [app env_value].
  - by rewrite Hs, Hd.
  - cbn [undefined_in forallb] in Hpre. apply andb_prop in Hpre as [Hx Hpre].
    destruct (cstring (from_index mem x)); [|done].
    destruct (defines name l); [done|]. by apply IH.
Qed.

(** X11.  When [execve] returns, the line written names the loader as it
    stands in the environment: for the first environment string that
    defines NACL_INTERP_LOADER, with value [v], the run ends with the one
    line "nacl_interp: failed to execute " [v] ": errno=" and the decimal
    numeral of the errno of [execve] (not of an earlier failed
    [readlink]), and status 2. *)
Theorem exec_failure_names_loader (a : arch) (mem : list Z) (k : kernel)
    (im : image) (pre : list Z) (w : Z) (post s : list Z) (e : Z) :
  wf_image im = true ->
  forallb (readable mem) (im_envs im) = true ->
  last_value AT_SECURE (im_aux im) = Some 0 ->
  im_envs im = pre ++ w :: post ->
  undefined_in mem ENVAR pre = true ->
  cstring (from_index mem w) = Some s -> defines ENVAR s = true ->
  k_execve k = Some e -> INT_MIN < e <= INT_MAX ->
  let v := drop (String.length ENVAR + 1) s in
  exists calls num,
    do_start a mem k (layout im)
    = Some (calls
            ++ [EWritev 2 (diagnostic failed_exec v
                             (Some (bytes_of "errno", num)));
                EExitGroup 2]) /\
    parse_decimal num = Some e /\
    concat (diagnostic failed_exec v (Some (bytes_of "errno", num)))
    = bytes_of "nacl_interp: failed to execute " ++ v
      ++ bytes_of ": errno=" ++ num ++ bytes_of newline.
Proof.
  intros Hwf Henv Hsec Henvs Hpre Hs Hd Hk He v.
  pose proof (env_value_first mem ENVAR pre w post s Hpre Hs Hd) as Hval.
  rewrite <- Henvs in Hval.
  assert (0 <= w) as Hw.
  { apply (readable_nonneg mem). unfold readable. by rewrite Hs. }
  assert (is_null (env_value mem ENVAR (im_envs im)) = false) as Hnull.
  { rewrite Hval. cbn [is_null].
    by destruct (Z.eqb_spec (w + Z.of_nat (String.length ENVAR) + 1) 0);
      [lia|]. }
  destruct (do_start_execve a mem k im Hwf Henv (secure_clear _ Hsec) Hnull)
    as (tail & Hrun & Htail); [by rewrite Hk|].
  rewrite Hk in Htail. destruct Htail as (v' & num & Hv' & Hnum & ->).
  assert (v' = v) as ->.
  { rewrite Hval in Hv'. unfold filename_string in Hv'.
    rewrite Hval in Hnull. rewrite Hnull in Hv'.
    unfold string_at in Hv'. cbn [view] in Hv'.
    pose proof (starts_with_length _ _ Hd) as Hlen.
    rewrite length_app, bytes_of_length in Hlen. cbn [length] in Hlen.
    replace (w + Z.of_nat (String.length ENVAR) + 1)
      with (w + Z.of_nat (String.length ENVAR + 1)) in Hv' by lia.
    rewrite (cstring_from_index_add _ _ _ _ Hs) in Hv' by lia.
    by injection Hv' as <-. }
  eexists ((im_execfn k im).2 ++ [_]), num.
  split; [by rewrite Hrun, <- app_assoc|]. split; [done|].
  rewrite diagnostic_line. unfold failed_exec.
  change (bytes_of "nacl_interp: failed to execute ")
    with (bytes_of "nacl_interp: " ++ bytes_of "failed to execute ").
  change (bytes_of ": errno=")
    with (bytes_of ": " ++ bytes_of "errno" ++ bytes_of "=").
  by rewrite <- !app_assoc.
Qed.

Lemma exec_failure_names_loader_witness :
  exists calls num,
    do_start x86_64 sample_mem sample_failing_kernel (layout sample_image)
    = Some (calls
            ++ [EWritev 2 (diagnostic failed_exec (bytes_of "/bin/loader")
                             (Some (bytes_of "errno", num)));
                EExitGroup 2]) /\
    parse_decimal num = Some 13.
Proof.
  destruct (exec_failure_names_loader x86_64 sample_mem
              sample_failing_kernel sample_image [66] 14 []
              (bytes_of "NACL_INTERP_LOADER=/bin/loader") 13
              eq_refl eq_refl eq_refl eq_refl eq_refl eq_refl eq_refl eq_refl
              ltac:(vm_compute; split; [reflexivity | discriminate]))
    as (calls & num & Hrun & Hnum & _).
  by exists calls, num.
Defined.

(** ** The auxiliary vector as do_start sees it *)

Lemma context_eta (c1 c2 : context) :
  execfn c1 = execfn c2 -> platform c1 = platform c2 ->
  secure c1 = secure c2 -> c1 = c2.
Proof. destruct c1, c2. simpl. by intros -> -> ->. Qed.

Lemma my_getenv_tail (mem : list Z) (name : string) (envs tl1 tl2 : list Z) :
  my_getenv mem name (envs ++ 0 :: tl1) = my_getenv mem name (envs ++ 0 :: tl2).
Proof.
  induction envs as [|w envs IH]; [done|]. cbn [app my_getenv].
  destruct (w =? 0); [done|].
  destruct (environ_match _ _ _) as [m|]; [|done]. bind_step.
  by destruct (is_null m).
Qed.

Lemma copy_args_ext (stack1 stack2 : list Z) (argv : Z) (n : nat) (i : Z)
    (arr : list (option char_ptr)) :
  (forall j : nat, (j < n)%nat ->
     load stack1 (argv + (i + Z.of_nat j))
     = load stack2 (argv + (i + Z.of_nat j))) ->
  copy_args stack1 argv n i arr = copy_args stack2 argv n i arr.
Proof.
  revert i arr. induction n as [|n IH]; intros i arr Hload; [done|].
  cbn [copy_args]. pose proof (Hload 0%nat ltac:(lia)) as H0.
  rewrite Z.add_0_r in H0. rewrite H0.
  destruct (load stack2 (argv + i)) as [w|]; [|done]. bind_step.
  destruct (store arr (2 + i) (Some (Word w))) as [arr'|]; [|done]. bind_step.
  apply IH. intros j Hj. specialize (Hload (S j) ltac:(lia)).
  by replace (i + 1 + Z.of_nat j) with (i + Z.of_nat (S j)) by lia.
Qed.

(** [redirect] reads of the block only the environment pointers up to
    their null word and [argv[1]] to [argv[argc]]. *)
Lemma redirect_ext (mem : list Z) (k : kernel) (stack1 stack2 : list Z)
    (argc argv envp : Z) (st : state) (platform execfn : char_ptr)
    (envs tl1 tl2 : list Z) :
  from_index stack1 envp = envs ++ 0 :: tl1 ->
  from_index stack2 envp = envs ++ 0 :: tl2 ->
  (forall j : nat, (j < Z.to_nat argc)%nat ->
     load stack1 (argv + (1 + Z.of_nat j))
     = load stack2 (argv + (1 + Z.of_nat j))) ->
  redirect mem k stack1 argc argv envp st platform execfn
  = redirect mem k stack2 argc argv envp st platform execfn.
Proof.
  intros H1 H2 Hload. unfold redirect.
  rewrite H1, H2, (my_getenv_tail _ _ _ tl1 tl2).
  destruct (my_getenv mem ENVAR (envs ++ 0 :: tl2)) as [loader|]; [|done].
  bind_step. destruct (wrap32 (argc + 4) <=? 0); [done|].
  destruct (is_null loader); [done|].
  destruct (store _ 0 _) as [a0|]; [|done]. bind_step.
  destruct (store _ 1 _) as [a1|]; [|done]. bind_step.
  destruct (store _ 2 _) as [a2|]; [|done]. bind_step.
  by rewrite (copy_args_ext stack1 stack2 _ _ _ _ Hload).
Qed.

(** X12.  A run depends on the auxiliary vector only through the last
    values of [AT_EXECFN], [AT_PLATFORM] and [AT_SECURE]: two well-formed
    blocks with the same arguments and environment pointers whose vectors
    agree on these three have the same run, whatever other entries they
    hold, in whatever order, and whatever lies above the vector. *)
Theorem unknown_tags_ignored (a : arch) (mem : list Z) (k : kernel)
    (im1 im2 : image) :
  wf_image im1 = true -> wf_image im2 = true ->
  im_args im1 = im_args im2 -> im_envs im1 = im_envs im2 ->
  last_value AT_EXECFN (im_aux im1) = last_value AT_EXECFN (im_aux im2) ->
  last_value AT_PLATFORM (im_aux im1)
    = last_value AT_PLATFORM (im_aux im2) ->
  last_value AT_SECURE (im_aux im1) = last_value AT_SECURE (im_aux im2) ->
  do_start a mem k (layout im1) = do_start a mem k (layout im2).
Proof.
  intros Hwf1 Hwf2 Hargs Henvs Hx Hp Hs.
  assert (im_context im1 = im_context im2) as Hc.
  { unfold im_context. apply context_eta.
    - by rewrite !context_of_execfn, Hx.
    - by rewrite !context_of_platform, Hp.
    - by rewrite !context_of_secure, Hs. }
  assert (im_execfn k im1 = im_execfn k im2) as He.
  { unfold im_execfn, im_argv0. by rewrite Hc, Hargs. }
  assert (im_argc im1 = im_argc im2) as Hn
    by (unfold im_argc; by rewrite Hargs).
  rewrite (do_start_image _ _ _ _ Hwf1), (do_start_image _ _ _ _ Hwf2).
  rewrite He, Hc, Hn. destruct (im_execfn k im2) as [[e st] ev].
  destruct (secure (im_context im2)); [done|].
  set (p := resolve_platform a (platform (im_context im2))).
  assert (redirect mem k (layout im1) (im_argc im2) 1 (im_argc im2 + 2)
            st p e
          = redirect mem k (layout im2) (im_argc im2) 1 (im_argc im2 + 2)
              st p e) as ->; [|done].
  eapply (redirect_ext _ _ _ _ _ _ _ _ _ _ (im_envs im2)).
  - by rewrite <- Hn, layout_envp, Henvs.
  - by rewrite layout_envp.
  - intros j Hj.
    replace (1 + Z.of_nat j) with (Z.of_nat (S j)) by lia.
    unfold im_argc in Hj.
    rewrite (layout_argv_lookup im1) by (rewrite Hargs; lia).
    rewrite (layout_argv_lookup im2) by lia.
    by rewrite Hargs.
Qed.

Lemma unknown_tags_ignored_witness :
  do_start x86_64 sample_mem sample_kernel (layout sample_image)
  = do_start x86_64 sample_mem sample_kernel
      (layout {| im_args := [1; 10; 12];
                 im_envs := [66; 14];
                 im_aux := [(6, 4096); (AT_SECURE, 1); (AT_EXECFN, 52);
                            (25, 99); (AT_SECURE, 0); (AT_PLATFORM, 45)];
                 im_end_val := 5;
                 im_above := [1; 2; 3] |}).
Proof.
  apply unknown_tags_ignored; reflexivity.
Defined.

(** ** The shape of a run *)

Lemma fail_shape (mem : list Z) (st : state)
    (message filename item1 : char_ptr) (value1 : Z) (tr : list event) :
  fail mem st message filename item1 value1 = Some tr -> fatal_end tr.
Proof.
  unfold fail. cbv zeta. intros H.
  destruct (my_strlen (view mem st _ message)) as [n1|]; [|done].
  cbn [mbind option_bind] in H.
  destruct (if is_null filename then _ else _) as [n2|]; [|done].
  cbn [mbind option_bind] in H.
  destruct (is_null item1).
  - cbn [mbind option_bind] in H. injection H as <-.
    eexists. split; reflexivity.
  - destruct (my_strlen (view mem st _ item1)) as [n3|]; [|done].
    cbn [mbind option_bind] in H.
    destruct (iov_int_string value1 _ 32) as [[e vb]|]; [|done].
    cbn [mbind option_bind] in H. injection H as <-.
    eexists. split; reflexivity.
Qed.

Lemma resolve_execfn_events (k : kernel) (stack : list Z) (argv : Z)
    (st st' : state) (e e' : char_ptr) (ev : list event) :
  resolve_execfn k stack argv st e = Some (e', st', ev) ->
  ev = [] \/ ev = [EReadlink "/proc/self/exe" (length (buf st) - 1)].
Proof.
  unfold resolve_execfn. destruct (is_null e); [|by intros [= _ _ <-]; left].
  destruct (sys_readlink k st _) as [n st1]. intros H. right.
  destruct (0 <=? n).
  - destruct (store _ _ _); [|done]. by injection H as _ _ <-.
  - destruct (load _ _); [|done]. by injection H as _ _ <-.
Qed.

Lemma store_inv {A} (l l' : list A) (i : Z) (x : A) :
  store l i x = Some l' ->
  l' = <[Z.to_nat i := x]> l /\ 0 <= i < Z.of_nat (length l).
Proof.
  unfold store.
  destruct (Z.leb_spec 0 i), (Z.ltb_spec i (Z.of_nat (length l)));
    try done.
  intros [= <-]. split; [done | lia].
Qed.

Lemma copy_args_keeps (stack : list Z) (argv : Z) (n : nat) (i : Z)
    (arr arr' : list (option char_ptr)) :
  1 <= i -> copy_args stack argv n i arr = Some arr' ->
  forall j : nat, (j < 3)%nat -> arr' !! j = arr !! j.
Proof.
  revert i arr. induction n as [|n IH]; intros i arr Hi H j Hj.
  - by injection H as <-.
  - cbn [copy_args] in H.
    destruct (load stack (argv + i)) as [w|]; [|done].
    cbn [mbind option_bind] in H.
    destruct (store arr (2 + i) (Some (Word w))) as [arr1|] eqn:Hst; [|done].
    cbn [mbind option_bind] in H.
    apply store_inv in Hst as [-> _].
    rewrite (IH (i + 1) _ ltac:(lia) H j Hj).
    apply list_lookup_insert_ne. lia.
Qed.

Lemma redirect_shape (mem : list Z) (k : kernel) (stack : list Z)
    (argc argv envp : Z) (st : state) (platform execfn : char_ptr)
    (tr : list event) :
  redirect mem k stack argc argv envp st platform execfn = Some tr ->
  redirect_end k tr.
Proof.
  unfold redirect. intros H.
  destruct (my_getenv mem ENVAR _) as [loader|]; [|done].
  cbn [mbind option_bind] in H.
  destruct (wrap32 (argc + 4) <=? 0); [done|].
  destruct (is_null loader) eqn:Hnull.
  { left. by apply fail_shape in H. }
  destruct (store _ 0 _) as [a0|] eqn:H0; [|done].
  cbn [mbind option_bind] in H.
  destruct (store _ 1 _) as [a1|] eqn:H1; [|done].
  cbn [mbind option_bind] in H.
  destruct (store _ 2 _) as [a2|] eqn:H2; [|done].
  cbn [mbind option_bind] in H.
  destruct (copy_args _ _ _ _ _) as [arr|] eqn:Hcopy; [|done].
  cbn [mbind option_bind] in H.
  assert (arr !! 0%nat = Some (Some loader)) as Harr.
  { rewrite (copy_args_keeps _ _ _ 1 _ _ ltac:(lia) Hcopy 0%nat) by lia.
    apply store_inv in H0 as [-> Hlen], H1 as [-> _], H2 as [-> _].
    rewrite !list_lookup_insert_ne by done.
    apply list_lookup_insert_eq.
    rewrite length_replicate in *. lia. }
  right. destruct (k_execve k) as [e|].
  - destruct (fail _ _ _ _ _ _) as [tail|] eqn:Hfail; [|done].
    cbn [mbind option_bind] in H. injection H as <-.
    exists loader, arr, envp, tail.
    repeat split; [done..|]. by apply fail_shape in Hfail.
  - injection H as <-. by exists loader, arr, envp, [].
Qed.

(** X13.  On every input, well formed or not, a run that does not leave
    its objects makes at most one [readlink], always on /proc/self/exe
    with [PATH_MAX] as the size, then either ends with the eight-entry
    [writev] on descriptor 2 and [exit_group(2)], or calls [execve] once,
    on a path that is not null and is also [new_argv[0]]; after an
    [execve] that returns, it ends in the same two calls.  It makes no
    other system call: nothing is written to another descriptor and no
    other status is used. *)
Theorem do_start_run_shape (a : arch) (mem : list Z) (k : kernel)
    (stack : list Z) (tr : list event) :
  do_start a mem k stack = Some tr ->
  redirect_end k tr \/
  exists tl,
    tr = EReadlink "/proc/self/exe" PATH_MAX :: tl /\ redirect_end k tl.
Proof.
  unfold do_start, do_start_context. intros H.
  destruct (decode stack) as [d|]; [|done]. cbn [mbind option_bind] in H.
  destruct (auxv_loop _ _) as [c|]; [|done]. cbn [mbind option_bind] in H.
  destruct (resolve_execfn _ _ _ _ _) as [[[e st] ev]|] eqn:Hx; [|done].
  cbn [mbind option_bind] in H.
  assert (exists tl, tr = ev ++ tl /\ redirect_end k tl) as (tl & -> & Htl).
  { destruct (secure c).
    - destruct (fail _ _ _ _ _ _) as [t|] eqn:Hf; [|done].
      cbn [mbind option_bind] in H. injection H as <-.
      exists t. split; [done|]. left. by apply fail_shape in Hf.
    - destruct (redirect _ _ _ _ _ _ _ _ _) as [t|] eqn:Hr; [|done].
      cbn [mbind option_bind] in H. injection H as <-.
      exists t. split; [done|]. by apply redirect_shape in Hr. }
  apply resolve_execfn_events in Hx as [-> | ->]; [by left|].
  right. exists tl. split; [|done].
  unfold initial_state. cbn [buf app]. rewrite length_replicate.
  do 2 f_equal; lia.
Qed.

Lemma do_start_run_shape_witness :
  exists tl,
    do_start x86_64 sample_mem sample_kernel (layout sample_bare_image)
    = Some (EReadlink "/proc/self/exe" PATH_MAX :: tl) /\
    redirect_end sample_kernel tl.
Proof.
  destruct (do_start x86_64 sample_mem sample_kernel
              (layout sample_bare_image)) as [tr|] eqn:Hrun;
    [|vm_compute in Hrun; discriminate].
  destruct (do_start_run_shape _ _ _ _ _ Hrun) as [Hend | (tl & -> & Hend)].
  - exfalso. vm_compute in Hrun. injection Hrun as <-.
    destruct Hend as [(data & [=] & _) | (? & ? & ? & ? & [=] & _)].
  - by exists tl.
Defined.

(** ** The loader and the memory *)

(** X14.  The path given to [execve] is the value of the first
    environment string that defines NACL_INTERP_LOADER: the address just
    after its equals sign, which is also [new_argv[0]] and holds the
    value as a string.  An empty value is a value like any other:
    [execve] is called on the empty path and the variable is not reported
    missing. *)
Theorem execve_path_is_loader_value (a : arch) (mem : list Z) (k : kernel)
    (im : image) (pre : list Z) (w : Z) (post s : list Z) :
  wf_image im = true ->
  forallb (readable mem) (im_envs im) = true ->
  last_value AT_SECURE (im_aux im) = Some 0 ->
  im_envs im = pre ++ w :: post ->
  undefined_in mem ENVAR pre = true ->
  cstring (from_index mem w) = Some s -> defines ENVAR s = true ->
  match k_execve k with
  | Some e => INT_MIN < e <= INT_MAX
  | None => True
  end ->
  let l := w + Z.of_nat (String.length ENVAR) + 1 in
  exists ev arr tail,
    do_start a mem k (layout im)
    = Some (ev ++ EExecve (Word l) arr (im_argc im + 2) :: tail) /\
    arr !! 0%nat = Some (Some (Word l)) /\
    cstring (from_index mem l) = Some (drop (String.length ENVAR + 1) s) /\
    forallb (fun x => negb (is_writev x || is_exit x)) ev = true.
Proof.
  intros Hwf Henv Hsec Henvs Hpre Hs Hd Herr l.
  pose proof (env_value_first mem ENVAR pre w post s Hpre Hs Hd) as Hval.
  rewrite <- Henvs in Hval. fold l in Hval.
  assert (0 <= w) as Hw.
  { apply (readable_nonneg mem). unfold readable. by rewrite Hs. }
  assert (is_null (env_value mem ENVAR (im_envs im)) = false) as Hnull.
  { rewrite Hval. cbn [is_null]. subst l.
    by destruct (Z.eqb_spec (w + Z.of_nat (String.length ENVAR) + 1) 0);
      [lia|]. }
  destruct (do_start_execve a mem k im Hwf Henv (secure_clear _ Hsec)
              Hnull Herr) as (tail & Hrun & _).
  rewrite Hval in Hrun.
  do 3 eexists. split; [exact Hrun|]. split; [done|]. split.
  - pose proof (starts_with_length _ _ Hd) as Hlen.
    rewrite length_app, bytes_of_length in Hlen. cbn [length] in Hlen.
    subst l.
    replace (w + Z.of_nat (String.length ENVAR) + 1)
      with (w + Z.of_nat (String.length ENVAR + 1)) by lia.
    by apply cstring_from_index_add.
  - by destruct (im_execfn_events k im) as [-> | ->].
Qed.

Lemma execve_path_is_loader_value_witness :
  exists ev arr tail,
    do_start x86_64 (sample_mem ++ literal "NACL_INTERP_LOADER=")
      sample_kernel
      (layout {| im_args := [1]; im_envs := [66; 77; 14];
                 im_aux := [(AT_SECURE, 0)];
                 im_end_val := 0; im_above := [] |})
    = Some (ev ++ EExecve (Word 96) arr 3 :: tail) /\
    cstring (from_index (sample_mem ++ literal "NACL_INTERP_LOADER=") 96)
    = Some [].
Proof.
  destruct (execve_path_is_loader_value x86_64
              (sample_mem ++ literal "NACL_INTERP_LOADER=") sample_kernel
              {| im_args := [1]; im_envs := [66; 77; 14];
                 im_aux := [(AT_SECURE, 0)];
                 im_end_val := 0; im_above := [] |}
              [66] 77 [14] (bytes_of "NACL_INTERP_LOADER=")
              eq_refl eq_refl eq_refl eq_refl eq_refl eq_refl eq_refl I)
    as (ev & arr & tail & Hrun & _ & Hs & _).
  exists ev, arr, tail. split; [exact Hrun | exact Hs].
Defined.

Lemma fail_agree (mem1 mem2 : list Z) (st : state) (m : string)
    (filename : char_ptr) (item1 : char_ptr) (value1 : Z) :
  (forall w, filename = Word w -> w <> 0 -> agree_at mem1 mem2 w) ->
  (item1 = NULL \/ exists it, item1 = Lit it) ->
  match filename with ValBuf _ => False | _ => True end ->
  fail mem1 st (Lit m) filename item1 value1
  = fail mem2 st (Lit m) filename item1 value1.
Proof.
  intros Hagree Hitem Hfile. unfold fail. cbv zeta. cbn [view].
  destruct (my_strlen (literal m)) as [n1|]; [|done]. bind_step.
  assert (forall vb1 vb2,
    (if is_null filename then Some 0%nat
     else my_strlen (view mem1 st vb1 filename))
    = (if is_null filename then Some 0%nat
       else my_strlen (view mem2 st vb1 filename)) /\
    forall n,
      (if is_null filename then Some 0%nat
       else my_strlen (view mem1 st vb1 filename)) = Some n ->
      iov_bytes mem1 st vb2 {| iov_base := filename; iov_len := n |}
      = iov_bytes mem2 st vb2 {| iov_base := filename; iov_len := n |})
    as Hf.
  { intros vb1 vb2. destruct filename as [w| | |off]; try done.
    cbn [is_null view]. destruct (Z.eqb_spec w 0) as [->|Hw].
    - split; [done|]. intros n [= <-]. by rewrite !iov_bytes_empty.
    - specialize (Hagree w eq_refl Hw). unfold agree_at in Hagree.
      rewrite !my_strlen_cstring, Hagree. split; [done|].
      intros n Hn. unfold iov_bytes. cbn [iov_len iov_base view].
      destruct (cstring (from_index mem2 w)) as [s|] eqn:Hs; [|done].
      injection Hn as <-.
      by rewrite (cstring_take _ _ Hagree), (cstring_take _ _ Hs). }
  destruct (Hf (replicate 32 0) (replicate 32 0)) as [Hlen Hbytes].
  rewrite <- Hlen.
  destruct (if is_null filename then _ else _) as [n2|] eqn:Hn2; [|done].
  bind_step.
  destruct Hitem as [->|[it ->]].
  - change (is_null NULL) with true. cbn iota. bind_step. cbn [negb map].
    do 3 f_equal.
    rewrite !iov_bytes_STRING_IOV, !iov_bytes_empty.
    rewrite (Hbytes n2 eq_refl). done.
  - cbn [is_null view]. destruct (my_strlen (literal it)) as [n3|]; [|done].
    bind_step.
    destruct (iov_int_string value1 (replicate 32 0) 32) as [[e vb]|]
      eqn:Hint; [|done].
    bind_step. cbn [negb list_insert insert map].
    destruct (Hf (replicate 32 0) vb) as [_ Hb]. rewrite Hn2 in Hb.
    do 3 f_equal.
    rewrite !iov_bytes_STRING_IOV, (Hb n2 eq_refl).
    unfold iov_int_string in Hint.
    destruct (iov_int_string_loop _ _ _) as [[p b]|]; [|done].
    cbn [mbind option_bind] in Hint.
    destruct (if value1 <? 0 then _ else _) as [[p' b']|]; [|done].
    cbn [mbind option_bind] in Hint. injection Hint as <- <-.
    done.
Qed.

Lemma im_execfn_pointer (k : kernel) (im : image) :
  match (im_execfn k im).1.1 with
  | Word w => w = im_argv0 im \/ last_value AT_EXECFN (im_aux im) = Some w
  | Buf => True
  | _ => False
  end.
Proof.
  unfold im_execfn, im_context. rewrite context_of_execfn.
  cbn [execfn initial_context].
  destruct (last_value AT_EXECFN (im_aux im)) as [v|].
  - destruct (is_null (Word v)); [|by right].
    destruct (k_readlink k); [by left | done].
  - change (is_null NULL) with true. cbn iota.
    destruct (k_readlink k); [by left | done].
Qed.

Lemma env_value_agree (mem1 mem2 : list Z) (name : string) (envs : list Z) :
  Forall (agree_at mem1 mem2) envs ->
  env_value mem1 name envs = env_value mem2 name envs /\
  forall l, env_value mem1 name envs = Word l -> l <> 0 ->
    agree_at mem1 mem2 l.
Proof.
  assert (forall l, NULL = Word l -> l <> 0 -> agree_at mem1 mem2 l)
    as Hnull by (by intros l [= <-]).
  induction 1 as [|w envs Hw _ [IHv IHa]]; [done|]. cbn [env_value].
  unfold agree_at in Hw. rewrite <- Hw.
  destruct (cstring (from_index mem1 w)) as [s|] eqn:Hs; [|done].
  destruct (defines name s) eqn:Hd; [|done].
  split; [done|]. intros l [= <-] _. unfold agree_at.
  apply starts_with_length in Hd.
  rewrite length_app, bytes_of_length in Hd. cbn [length] in Hd.
  replace (w + Z.of_nat (String.length name) + 1)
    with (w + Z.of_nat (String.length name + 1)) by lia.
  rewrite (cstring_from_index_add _ _ _ _ Hs) by lia.
  symmetry in Hw. by rewrite (cstring_from_index_add _ _ _ _ Hw) by lia.
Qed.

(** X15.  [do_start] reads the memory only at the environment strings and
    at the string that becomes the executable name: two memories that
    hold the same strings at the environment pointers, at [argv[0]] and
    at the last [AT_EXECFN] value give the same run.  In particular the
    strings of [argv[1]] and beyond are never read; the arguments are
    passed on as pointers. *)
Theorem argument_strings_never_read (a : arch) (k : kernel) (im : image)
    (mem1 mem2 : list Z) :
  wf_image im = true ->
  forallb (readable mem1) (im_envs im) = true ->
  Forall (agree_at mem1 mem2) (im_envs im) ->
  agree_at mem1 mem2 (im_argv0 im) ->
  (forall v, last_value AT_EXECFN (im_aux im) = Some v ->
     agree_at mem1 mem2 v) ->
  do_start a mem1 k (layout im) = do_start a mem2 k (layout im).
Proof.
  intros Hwf Henv1 Hagree H0 Hx.
  assert (forallb (readable mem2) (im_envs im) = true) as Henv2.
  { clear -Henv1 Hagree. induction Hagree as [|w envs Hw _ IH]; [done|].
    cbn [forallb] in *. apply andb_prop in Henv1 as [Hr Henv1].
    rewrite (IH Henv1), andb_true_r. unfold readable in *.
    unfold agree_at in Hw. by rewrite <- Hw. }
  rewrite !(do_start_image _ _ _ _ Hwf).
  pose proof (im_execfn_pointer k im) as Hptr.
  destruct (im_execfn k im) as [[e st] ev]. cbn [fst snd] in Hptr.
  assert (forall w, e = Word w -> w <> 0 -> agree_at mem1 mem2 w) as He.
  { intros w -> _. destruct Hptr as [-> | Hv]; [done | by apply Hx]. }
  assert (match e with ValBuf _ => False | _ => True end) as Hnv
    by by destruct e.
  destruct (secure (im_context im)).
  - by rewrite (fail_agree mem1 mem2 st _ e NULL 0 He (or_introl eq_refl) Hnv).
  - rewrite !redirect_layout by done. unfold redirect_of.
    destruct (env_value_agree mem1 mem2 ENVAR _ Hagree) as [<- Hl].
    destruct (is_null (env_value mem1 ENVAR (im_envs im))) eqn:Hnull.
    + rewrite (fail_agree mem1 mem2 st _ NULL NULL 0);
        [done | | by left | done].
      by intros w [= <-].
    + destruct (k_execve k) as [err|]; [|done].
      rewrite (fail_agree mem1 mem2 _ _ (env_value mem1 ENVAR (im_envs im))
                 (Lit "errno") err); [done | | by right; eexists |].
      * intros w Hw. by apply Hl.
      * destruct (env_value mem1 ENVAR (im_envs im)) eqn:Hv; try done.
        clear -Hv. induction (im_envs im) as [|x envs IH]; [done|].
        cbn [env_value] in Hv.
        destruct (cstring (from_index mem1 x)); [|done].
        by destruct (defines ENVAR l).
Qed.

Lemma argument_strings_never_read_witness :
  do_start x86_64 sample_mem sample_failing_kernel (layout sample_image)
  = do_start x86_64 (<[10%nat := 120]> (<[12%nat := 0]> sample_mem))
      sample_failing_kernel (layout sample_image).
Proof.
  apply argument_strings_never_read.
  - reflexivity.
  - reflexivity.
  - repeat constructor.
  - reflexivity.
  - intros v [= <-]. reflexivity.
Defined.
